(** * MIRO operations and messages (pyom.miroop)

    A shallow embedding of [miroop.py]: the construction of MIRO
    operations ([new_body] and the builders on top of it), the
    classification predicates, [about], [verify] and the message
    envelope [new_message].

    Python objects live in a store; an operation refers to its fragments
    by reference, so the in-place clearing of [about] is visible through
    every alias of a fragment. *)

From stdpp Require Import base strings gmap list option.

Open Scope string_scope.
Open Scope list_scope.
Open Scope nat_scope.

(** * Values, exceptions, store *)

(** The exceptions that the modelled code can meet.  [NameError],
    [AttributeError], [TypeError], [IndexError] and [KeyError] are
    Python's own; [BadRef] is not a Python exception: it marks a
    reference that points outside the store, which no Python program can
    build. *)
Inductive exn :=
  | NotAllowedConstruct (msg : string)
  | MiroSpecException (msg : string)
  | NameError
  | AttributeError
  | TypeError
  | IndexError
  | KeyError
  | BadRef.

Inductive result (A : Type) :=
  | Ok (a : A)
  | Err (e : exn).
Arguments Ok {A} a.
Arguments Err {A} e.

(** The value of an [about] attribute: [None] or a string. *)
Inductive about_val :=
  | ANone
  | AStr (s : string).

(** An instance of the object model (rdfmarshal's [Base]): its class, its
    [about] attribute ([None] here when the attribute is not set, the
    case [_verify_about] catches with [AttributeError]) and its asserted
    properties; [len(obj)] is the number of properties. *)
Record Fragment := mkFragment {
  object_type : string;
  about_attr : option about_val;
  properties : gmap string (list string) }.

(** What a caller can put in a slot: [None], a string (a bare URIRef, see
    [new_delete_body]) or a reference to an instance. *)
Inductive pyval :=
  | VNone
  | VStr (s : string)
  | VObj (l : nat).

(** What [oper[key]] holds: the code always reads [oper[key][0]], so a
    stored value is a list of items; [SNone] is a stored bare [None]. *)
Inductive stored :=
  | SNone
  | SList (xs : list pyval).

(** What assigning [None] to a key leaves in the container of an
    operation.  The sources do not determine it, so every statement
    about [new_body] is made for each of the four possibilities. *)
Inductive none_policy :=
  | DropKey        (* the key is not set *)
  | StoreNone      (* a bare None is stored *)
  | StoreEmpty     (* the empty list is stored *)
  | StoreNoneItem. (* [None] is stored as the one item *)

(** Modelled from the spec: the container class [miro.MIRO] is generated
    from the ontology and is not part of the sources.  The spec calls it
    "a dynamically-keyed property bag" with "up to four optional named
    slots"; it is a finite map from property name to stored value, with
    [key in oper], [oper[key]] and [len(oper)] those of a dictionary.
    [oper[key] = v] wraps the value into a one-item list, which is what
    the code reads back with [oper[key][0]]. *)
Definition setitem (p : none_policy) (oper : gmap string stored)
    (key : string) (v : pyval) : gmap string stored :=
  match v with
  | VNone =>
      match p with
      | DropKey => delete key oper
      | StoreNone => <[key := SNone]> oper
      | StoreEmpty => <[key := SList []]> oper
      | StoreNoneItem => <[key := SList [VNone]]> oper
      end
  | _ => <[key := SList [v]]> oper
  end.

(** * A state and exception monad over the store *)

Definition M (A : Type) : Type := list Fragment → result A * list Fragment.

Definition ret {A} (a : A) : M A := λ h, (Ok a, h).
Definition raise {A} (e : exn) : M A := λ h, (Err e, h).
Definition bind {A B} (m : M A) (k : A → M B) : M B := λ h,
  match m h with
  | (Ok a, h') => k a h'
  | (Err e, h') => (Err e, h')
  end.

(** The exception classes that the code names in an [except] clause. *)
Definition exn_eqb (e1 e2 : exn) : bool :=
  match e1, e2 with
  | NameError, NameError | AttributeError, AttributeError
  | TypeError, TypeError | IndexError, IndexError
  | KeyError, KeyError | BadRef, BadRef => true
  | _, _ => false
  end.

(** [try: m except e: handler] *)
Definition try_except {A} (m : M A) (e : exn) (handler : M A) : M A := λ h,
  match m h with
  | (Err e', h') => if exn_eqb e e' then handler h' else (Err e', h')
  | r => r
  end.

#[global] Instance M_ret : MRet M := @ret.
#[global] Instance M_bind : MBind M := λ A B k m, bind m k.

(** * Primitive operations of the object model *)

Definition truthy_about (a : about_val) : bool :=
  match a with
  | ANone => false
  | AStr s => negb (String.eqb s "")
  end.

Definition truthy_stored (st : stored) : bool :=
  match st with
  | SNone => false
  | SList [] => false
  | SList (_ :: _) => true
  end.

Definition about_eqb (a b : about_val) : bool :=
  match a, b with
  | ANone, ANone => true
  | AStr s, AStr t => String.eqb s t
  | _, _ => false
  end.

(** [x == a] for an item [x] and an [about] value [a]: an instance is
    never equal to a string or to [None]. *)
Definition item_eq_about (x : pyval) (a : about_val) : bool :=
  match x, a with
  | VNone, ANone => true
  | VStr s, AStr t => String.eqb s t
  | _, _ => false
  end.

(** [needle in hay] on strings: substring test. *)
Fixpoint str_in (needle hay : string) : bool :=
  String.prefix needle hay ||
  match hay with
  | EmptyString => false
  | String _ rest => str_in needle rest
  end.

Definition getitem (oper : gmap string stored) (key : string) : M stored :=
  match oper !! key with
  | Some st => ret st
  | None => raise KeyError
  end.

Definition index0 (st : stored) : M pyval :=
  match st with
  | SNone => raise TypeError
  | SList [] => raise IndexError
  | SList (x :: _) => ret x
  end.

(** [oper[key][0]] *)
Definition item0 (oper : gmap string stored) (key : string) : M pyval :=
  st ← getitem oper key; index0 st.

(** [x.about] *)
Definition getattr_about (x : pyval) : M about_val := λ h,
  match x with
  | VObj l =>
      match h !! l with
      | Some f =>
          match about_attr f with
          | Some a => (Ok a, h)
          | None => (Err AttributeError, h)
          end
      | None => (Err BadRef, h)
      end
  | _ => (Err AttributeError, h)
  end.

Definition set_about (a : about_val) (f : Fragment) : Fragment :=
  mkFragment (object_type f) (Some a) (properties f).

(** [x.about = a] *)
Definition setattr_about (x : pyval) (a : about_val) : M unit := λ h,
  match x with
  | VObj l =>
      match h !! l with
      | Some f => (Ok (), <[l := set_about a f]> h)
      | None => (Err BadRef, h)
      end
  | _ => (Err AttributeError, h)
  end.

(** [len(x)] *)
Definition py_len (x : pyval) : M nat := λ h,
  match x with
  | VObj l =>
      match h !! l with
      | Some f => (Ok (size (properties f)), h)
      | None => (Err BadRef, h)
      end
  | VStr s => (Ok (String.length s), h)
  | VNone => (Err TypeError, h)
  end.

(** [x.__class__()]: a fresh instance of the class of [x], without
    properties; [str()] is the empty string and [NoneType] cannot be
    instantiated. *)
Definition new_instance (x : pyval) : M pyval := λ h,
  match x with
  | VObj l =>
      match h !! l with
      | Some f => (Ok (VObj (length h)), h ++ [mkFragment (object_type f) None ∅])
      | None => (Err BadRef, h)
      end
  | VStr _ => (Ok (VStr ""), h)
  | VNone => (Err TypeError, h)
  end.

(** * new_body *)

(** The combinations of properties that are allowed. *)
Definition ALLOWEDCONSTRUCTS : list string :=
  ["MIRO"; "MIR"; "MI"; "MR"; "O"; "MIO"; "MRO"; "MO"; "M"].

Definition allowed (optype : string) : bool :=
  existsb (String.eqb optype) ALLOWEDCONSTRUCTS.

Definition SLOT_NAMES : list (string * string) :=
  [("M", "match"); ("I", "insert"); ("R", "replace"); ("O", "otherwiseInsert")].

(** One round of the loop that fills the operation from [args]. *)
Definition collect_slot (p : none_policy) (args : gmap string pyval)
    (acc : gmap string stored * string) (names : string * string)
    : gmap string stored * string :=
  let '(short_name, long_name) := names in
  match args !! short_name with
  | Some v => (setitem p acc.1 long_name v, acc.2 +:+ short_name)
  | None =>
      match args !! long_name with
      | Some v => (setitem p acc.1 long_name v, acc.2 +:+ short_name)
      | None => acc
      end
  end.

(** The loop over the four pairs of names: the operation it fills and
    the construct string [optype] it accumulates. *)
Definition collect (p : none_policy) (args : gmap string pyval)
    : gmap string stored * string :=
  foldl (collect_slot p args) (∅, "") SLOT_NAMES.

(** The body of the loop of [_verify_about]: a string is skipped, and an
    item without [about] gets the empty one. *)
Definition verify_about_part (oper : gmap string stored) (part : string) : M unit :=
  match oper !! part with
  | None => ret ()
  | Some _ =>
      x ← item0 oper part;
      match x with
      | VStr _ => ret ()
      | _ =>
          try_except (getattr_about x ≫= λ _, ret ()) AttributeError
            (y ← item0 oper part; setattr_about y (AStr ""))
      end
  end.

(** [_verify_about(oper, parts)] *)
Fixpoint verify_about (oper : gmap string stored) (parts : list string) : M unit :=
  match parts with
  | [] => ret ()
  | part :: rest => verify_about_part oper part ;; verify_about oper rest
  end.

(** The loop over [insert], [replace], [otherwiseInsert] that looks for a
    fragment to take the match from; [m] is the value bound to the local
    name [match] so far. *)
Fixpoint derive_match (oper : gmap string stored) (typs : list string)
    (m : pyval) : M pyval :=
  match typs with
  | [] => ret m
  | typ :: rest =>
      match oper !! typ with
      | Some _ =>
          x ← item0 oper typ;
          m' ← new_instance x;
          y ← item0 oper typ;
          a ← getattr_about y;
          setattr_about m' a ;;
          z ← item0 oper typ;
          setattr_about z (AStr "") ;;
          ret m'
      | None => derive_match oper rest m
      end
  end.

(** Reading a local name: [None] is a name that was never bound. *)
Definition read_name (binding : option pyval) : M pyval :=
  match binding with
  | Some v => ret v
  | None => raise NameError
  end.

(** [if "match" in oper: if not oper["match"]: ...]: the match is taken
    from the first of the other slots, and [MiroSpecException] is raised
    by the handler of [NameError] around the assignment. *)
Definition fix_match (p : none_policy) (oper : gmap string stored)
    : M (gmap string stored) :=
  match oper !! "match" with
  | None => ret oper
  | Some _ =>
      st ← getitem oper "match";
      if negb (truthy_stored st) then
        m ← derive_match oper ["insert"; "replace"; "otherwiseInsert"] VNone;
        try_except
          (v ← read_name (Some m); ret (setitem p oper "match" v))
          NameError
          (raise (MiroSpecException "Missing match specification"))
      else ret oper
  end.

(** [if "O" in optype and "M" in optype: ...] *)
Definition clear_otherwise (oper : gmap string stored) (optype : string) : M unit :=
  if str_in "O" optype && str_in "M" optype then
    o ← item0 oper "otherwiseInsert";
    ao ← getattr_about o;
    m ← item0 oper "match";
    am ← getattr_about m;
    if about_eqb ao am then
      o' ← item0 oper "otherwiseInsert"; setattr_about o' (AStr "")
    else ret ()
  else ret ().

(** [if oper["replace"][0].about and oper["replace"][0] == oper["match"][0].about: ...]:
    the left operand of [==] is the item itself. *)
Definition clear_replace (oper : gmap string stored) : M unit :=
  r ← item0 oper "replace";
  ar ← getattr_about r;
  if truthy_about ar then
    r' ← item0 oper "replace";
    m ← item0 oper "match";
    am ← getattr_about m;
    if item_eq_about r' am then
      r'' ← item0 oper "replace"; setattr_about r'' (AStr "")
    else ret ()
  else ret ().

(** [if oper["insert"][0].about: oper["insert"][0].about = ""] *)
Definition clear_insert (oper : gmap string stored) : M unit :=
  i ← item0 oper "insert";
  ai ← getattr_about i;
  if truthy_about ai then
    i' ← item0 oper "insert"; setattr_about i' (AStr "")
  else ret ().

(** [if "M" in optype: ...] *)
Definition clear_relative (oper : gmap string stored) (optype : string) : M unit :=
  if str_in "M" optype then
    (if str_in "R" optype then clear_replace oper else ret ()) ;;
    (if str_in "I" optype then clear_insert oper else ret ())
  else ret ().

Definition not_allowed_msg (optype : string) : string :=
  optype +:+ " not an allowed MIRO construct".

Definition new_body (p : none_policy) (args : gmap string pyval)
    : M (gmap string stored) :=
  let '(oper, optype) := collect p args in
  if negb (allowed optype) then raise (NotAllowedConstruct (not_allowed_msg optype))
  else
    verify_about oper ["match"; "insert"; "replace"; "otherwiseInsert"] ;;
    oper' ← fix_match p oper;
    clear_otherwise oper' optype ;;
    clear_relative oper' optype ;;
    ret oper'.

(** ** The builders on top of [new_body] *)

Definition new_add_body (p : none_policy) (obj : pyval) : M (gmap string stored) :=
  new_body p {["O" := obj]}.

Definition new_delete_body (p : none_policy) (obj : pyval) : M (gmap string stored) :=
  new_body p {["M" := obj]}.

(** [not match] for the optional argument of [new_insert_body]: [None],
    the empty string and an instance without properties are false. *)
Definition truthy_val (x : pyval) : M bool := λ h,
  match x with
  | VNone => (Ok false, h)
  | VStr s => (Ok (negb (String.eqb s "")), h)
  | VObj l =>
      match h !! l with
      | Some f => (Ok (negb (size (properties f) =? 0)), h)
      | None => (Err BadRef, h)
      end
  end.

(** [new_insert_body(insert, match=None)]: without a match, one is made
    from the insert, whose [about] becomes [None]. *)
Definition new_insert_body (p : none_policy) (insert match_ : pyval)
    : M (gmap string stored) :=
  t ← truthy_val match_;
  m ← (if negb t then
         m' ← new_instance insert;
         a ← getattr_about insert;
         setattr_about m' a ;;
         setattr_about insert ANone ;;
         ret m'
       else ret match_);
  new_body p {["I" := insert; "M" := m]}.

Definition new_insert_or_add_body (p : none_policy) (match_ insert add : pyval)
    : M (gmap string stored) :=
  new_body p {["I" := insert; "M" := match_; "O" := add]}.

Definition new_replace_body (p : none_policy) (match_ replace : pyval)
    : M (gmap string stored) :=
  new_body p {["R" := replace; "M" := match_]}.

Definition new_replace_or_add_body (p : none_policy) (match_ replace add : pyval)
    : M (gmap string stored) :=
  new_body p {["R" := replace; "M" := match_; "O" := add]}.

(** * Classification *)

(** [key in oper] *)
Definition has_key (oper : gmap string stored) (key : string) : bool :=
  match oper !! key with
  | Some _ => true
  | None => false
  end.

Definition operation (oper : gmap string stored) : string :=
  let res := "" in
  let res := if has_key oper "match" then res +:+ "M" else res in
  let res := if has_key oper "insert" then res +:+ "I" else res in
  let res := if has_key oper "replace" then res +:+ "R" else res in
  let res := if has_key oper "otherwiseInsert" then res +:+ "O" else res in
  res.

Definition is_add_operation (oper : gmap string stored) : bool :=
  (size oper =? 1) && has_key oper "otherwiseInsert".

Definition is_delete_operation (oper : gmap string stored) : bool :=
  (size oper =? 1) && has_key oper "match".

Definition is_move_operation (oper : gmap string stored) : M bool :=
  if (size oper =? 2) && has_key oper "match" && has_key oper "replace" then
    m ← item0 oper "match";
    am ← getattr_about m;
    if truthy_about am then
      r ← item0 oper "replace";
      ar ← getattr_about r;
      if truthy_about ar then
        m' ← item0 oper "match";
        lm ← py_len m';
        if (lm =? 0) then
          r' ← item0 oper "replace";
          lr ← py_len r';
          if (lr =? 0) then ret true else ret false
        else ret false
      else ret false
    else ret false
  else ret false.

Definition about (oper : gmap string stored) : M (list about_val) :=
  let opt := operation oper in
  let res := [] in
  res ← (if str_in "M" opt then
           m ← item0 oper "match"; am ← getattr_about m; ret (res ++ [am])
         else ret res);
  res ← (if str_in "R" opt then
           r ← item0 oper "replace"; ar ← getattr_about r;
           if truthy_about ar then
             r' ← item0 oper "replace"; ar' ← getattr_about r'; ret (res ++ [ar'])
           else ret res
         else ret res);
  res ← (if str_in "O" opt then
           o ← item0 oper "otherwiseInsert"; ao ← getattr_about o; ret (res ++ [ao])
         else ret res);
  ret res.

Definition verify_msg (optype : string) : string :=
  "Not an allowed MIRO construct '" +:+ optype +:+ "'".

Section Verify.
(** [oper.within_restrictions()]: the schema check of the object model,
    which returns a boolean or raises. *)
Variable within_restrictions : gmap string stored → M bool.

Definition verify (oper : gmap string stored) : M bool :=
  within_restrictions oper ;;
  if negb (allowed (operation oper)) then
    raise (NotAllowedConstruct (verify_msg (operation oper)))
  else ret true.
End Verify.

Definition remove_object_type (oper : gmap string stored) : M bool :=
  if String.eqb (operation oper) "M" then
    m ← item0 oper "match";
    lm ← py_len m;
    if (lm =? 0) then ret true else ret false
  else ret false.

Definition is_rename_operation (oper : gmap string stored) : M bool :=
  if String.eqb (operation oper) "MR" then
    match_ ← item0 oper "match";
    replace ← item0 oper "replace";
    lm ← py_len match_;
    if (lm =? 0) then
      am ← getattr_about match_;
      if truthy_about am then
        lr ← py_len replace;
        if (lr =? 0) then
          ar ← getattr_about replace;
          if truthy_about ar then ret true else ret false
        else ret false
      else ret false
    else ret false
  else ret false.

(** * new_message *)

(** The values of a message: [None], a string, a list of strings (the
    receivers), one operation or a list of operations (the body). *)
Inductive mval :=
  | MNone
  | MStr (s : string)
  | MList (xs : list string)
  | MOper (oper : gmap string stored)
  | MOpers (opers : list (gmap string stored)).

(** Python's truth value: [None], the empty string, the empty list and an
    object of length zero are false. *)
Definition truthy_mval (v : mval) : bool :=
  match v with
  | MNone => false
  | MStr s => negb (String.eqb s "")
  | MList xs => negb (length xs =? 0)
  | MOper oper => negb (size oper =? 0)
  | MOpers opers => negb (length opers =? 0)
  end.

(** Modelled from the spec: the class [om2_1.Message] is generated from
    the ontology and is not part of the sources; the spec describes the
    envelope as named fields "plus an open extension map of additional
    named fields", so it is a finite map from field name to value and
    [msg[key] = val] is the insertion. *)
Definition msg_setitem (msg : gmap string mval) (key : string) (val : mval)
    : gmap string mval :=
  <[key := val]> msg.

(** One round of the loop over [args.items()]. *)
Definition merge_field (sender receiver : mval) (key : string) (val : mval)
    (msg : gmap string mval) : gmap string mval :=
  if truthy_mval sender && String.eqb key "sender" then msg
  else if truthy_mval receiver && String.eqb key "receiver" then msg
  else if String.eqb key "body" then msg
  else msg_setitem msg key val.

(** [now] is the result of [time.strftime("%FT%T")] and [uuid] the one of
    ["%s" % (uuid1(), )].  [args] is [None] or a dictionary; the result
    holds the message and [args] as the call leaves it
    ([del args["mid"]]).  Nothing in the function raises: the
    [KeyError] and the [TypeError] of [args["mid"]] are caught. *)
Definition new_message (oper sender receiver : mval)
    (args : option (gmap string mval)) (now uuid : string)
    : result (gmap string mval * option (gmap string mval)) :=
  let msg : gmap string mval := ∅ in
  let msg := if truthy_mval oper then msg_setitem msg "body" oper else msg in
  let msg := msg_setitem msg "source" sender in
  let msg := if truthy_mval receiver then msg_setitem msg "receiver" receiver else msg in
  let msg := msg_setitem msg "createTime" (MStr now) in
  let '(msg, args) :=
    match args with
    | None => (msg_setitem msg "mid" (MStr uuid), args)          (* TypeError *)
    | Some a =>
        match a !! "mid" with
        | Some mid => (msg_setitem msg "mid" mid, Some (delete "mid" a))
        | None => (msg_setitem msg "mid" (MStr uuid), args)      (* KeyError *)
        end
    end in
  let msg :=
    match args with
    | Some a =>
        if negb (size a =? 0) then map_fold (merge_field sender receiver) msg a
        else msg
    | None => msg
    end in
  Ok (msg, args).

(** A fragment without properties. *)
Definition frag (ty about : string) : Fragment := mkFragment ty (Some (AStr about)) ∅.

(** * Predicates of the statements *)

(** [m] returns normally from store [h], with a result and a final store
    that satisfy [Q]. *)
Definition succeeds {A} (m : M A) (h : list Fragment)
    (Q : A → list Fragment → Prop) : Prop :=
  match m h with
  | (Ok a, h') => Q a h'
  | (Err _, _) => False
  end.

(** The instance at [l] has its [about] attribute set. *)
Definition has_about (h : list Fragment) (l : nat) : Prop :=
  ∃ f a, h !! l = Some f ∧ about_attr f = Some a.

(** Every fragment that has an [about] in [h] has one in [h']. *)
Definition about_kept (h h' : list Fragment) : Prop :=
  length h ≤ length h' ∧ ∀ l, has_about h l → has_about h' l.

(** The four slots of an operation. *)
Definition PARTS : list string := ["match"; "insert"; "replace"; "otherwiseInsert"].

(** Slot [key] of [oper], when set, holds exactly one instance of the
    store. *)
Definition slot_obj (h : list Fragment) (oper : gmap string stored)
    (key : string) : Prop :=
  match oper !! key with
  | Some st => ∃ l, st = SList [VObj l] ∧ l < length h
  | None => True
  end.

(** The same, and the instance has an [about]. *)
Definition slot_ok (h : list Fragment) (oper : gmap string stored)
    (key : string) : Prop :=
  match oper !! key with
  | Some st => ∃ l, st = SList [VObj l] ∧ has_about h l
  | None => True
  end.

(** The value that [args] supplies for a slot: under the single-letter
    name when that key is present, else under the full name. *)
Definition slot_arg (args : gmap string pyval) (names : string * string)
    : option pyval :=
  match args !! names.1 with
  | Some v => Some v
  | None => args !! names.2
  end.

(** The construct string of [args]: the letters of the supplied slots,
    in the order M, I, R, O. *)
Definition construct_of (args : gmap string pyval) : string :=
  foldl (λ s names, match slot_arg args names with
                    | Some _ => s +:+ names.1
                    | None => s
                    end) "" SLOT_NAMES.

(** Every supplied slot holds a fragment of the store. *)
Definition populated (h : list Fragment) (args : gmap string pyval) : Prop :=
  Forall (λ names, match slot_arg args names with
                   | Some v => ∃ l, v = VObj l ∧ l < length h
                   | None => True
                   end) SLOT_NAMES.

(** The seven subsets of the letters M, I, R, O that are not allowed. *)
Definition ILLEGALCONSTRUCTS : list string :=
  [""; "I"; "R"; "IR"; "IO"; "RO"; "IRO"].

(** The operation has no key besides the four slots. *)
Definition keys_in_parts (oper : gmap string stored) : Prop :=
  ∀ key, is_Some (oper !! key) → key ∈ PARTS.

(** An operation of the data model: no key besides the four slots, and
    every slot that is set holds exactly one fragment of the store, with
    its [about] set. *)
Definition oper_wf (h : list Fragment) (oper : gmap string stored) : Prop :=
  keys_in_parts oper ∧
  Forall (slot_ok h oper) PARTS.

(** [m] never raises [MiroSpecException]. *)
Definition no_miro {A} (m : M A) : Prop :=
  ∀ h msg, (m h).1 ≠ Err (MiroSpecException msg).

(** The operation that holds [lm] in [match] and [lr] in [replace]. *)
Definition MR_oper (lm lr : nat) : gmap string stored :=
  {["match" := SList [VObj lm]; "replace" := SList [VObj lr]]}.

(** An operation given by the content of its four slots. *)
Definition put (key : string) (o : option stored) (m : gmap string stored)
    : gmap string stored :=
  match o with
  | Some st => <[key := st]> m
  | None => m
  end.

Definition from_slots (m i r o : option stored) : gmap string stored :=
  put "match" m (put "insert" i (put "replace" r (put "otherwiseInsert" o ∅))).

(** The [about] of the fragment in slot [key], if there is one. *)
Definition slot_about (h : list Fragment) (oper : gmap string stored)
    (key : string) : option about_val :=
  match oper !! key with
  | Some (SList (VObj l :: _)) => h !! l ≫= about_attr
  | _ => None
  end.

(** The identities an operation touches: the [about] of the match
    whatever it is, the [about] of the replace when it is not empty, the
    [about] of the otherwiseInsert whatever it is. *)
Definition affected_identities (h : list Fragment) (oper : gmap string stored)
    : list about_val :=
  match slot_about h oper "match" with
  | Some a => [a]
  | None => []
  end ++
  match slot_about h oper "replace" with
  | Some a => if truthy_about a then [a] else []
  | None => []
  end ++
  match slot_about h oper "otherwiseInsert" with
  | Some a => [a]
  | None => []
  end.

(** The keys of [args] that the loop of [new_message] copies. *)
Definition copied (sender receiver : mval) (key : string) : bool :=
  negb ((truthy_mval sender && String.eqb key "sender") ||
        (truthy_mval receiver && String.eqb key "receiver") ||
        String.eqb key "body").

(** [args] has no entry under [key]. *)
Definition no_entry (args : option (gmap string mval)) (key : string) : Prop :=
  match args with
  | Some a => a !! key = None
  | None => True
  end.

(** * What a call may do to the store *)

(** From [h] to [h']: no fragment is added or removed, no class and no
    property changes, and an [about] either stays or becomes the empty
    string. *)
Definition only_clears (h h' : list Fragment) : Prop :=
  length h' = length h ∧
  ∀ l f, h !! l = Some f →
    ∃ f', h' !! l = Some f' ∧
          object_type f' = object_type f ∧
          properties f' = properties f ∧
          (about_attr f' = about_attr f ∨ about_attr f' = Some (AStr "")).

(** Whatever its result, [m] does nothing else to the store. *)
Definition clears_only {A} (m : M A) : Prop :=
  ∀ h, only_clears h (m h).2.

(** The [about] is [None] or the empty string. *)
Definition about_empty (a : about_val) : Prop := truthy_about a = false.

(** * The fields of a message *)

(** The fields that [new_message] sets itself before it looks at
    [args]. *)
Definition own_field (oper sender receiver : mval) (now : string)
    (key : string) : option mval :=
  if String.eqb key "body" then
    if truthy_mval oper then Some oper else None
  else if String.eqb key "source" then Some sender
  else if String.eqb key "receiver" then
    if truthy_mval receiver then Some receiver else None
  else if String.eqb key "createTime" then Some (MStr now)
  else None.

(** The entry of [args] under [key], if [args] is a dictionary that has
    one. *)
Definition args_entry (args : option (gmap string mval)) (key : string)
    : option mval :=
  match args with
  | Some a => a !! key
  | None => None
  end.

(** The field [key] of the message, read off the arguments: the message
    id is the entry "mid" of [args] or else the generated one; any other
    field is the entry of [args] when there is one and the key is copied,
    and else what [new_message] set itself. *)
Definition message_field (oper sender receiver : mval)
    (args : option (gmap string mval)) (now uuid : string) (key : string)
    : option mval :=
  if String.eqb key "mid" then
    match args_entry args "mid" with
    | Some mid => Some mid
    | None => Some (MStr uuid)
    end
  else
    match args_entry args key with
    | Some v =>
        if copied sender receiver key then Some v
        else own_field oper sender receiver now key
    | None => own_field oper sender receiver now key
    end.

(** [args] as the call leaves it: without its entry "mid". *)
Definition args_left (args : option (gmap string mval))
    : option (gmap string mval) :=
  match args with
  | Some a => Some (delete "mid" a)
  | None => None
  end.

(** The operation that holds [lm] in [match] and [li] in [insert]. *)
Definition MI_oper (lm li : nat) : gmap string stored :=
  {["match" := SList [VObj lm]; "insert" := SList [VObj li]]}.

(** * om2api: dict_join *)

Section DictJoin.
Context {V : Type} `{EqDecision V}.

(** [for val in values: if val in dic0[key]: pass else: dic0[key].append(val)]:
    the values not yet in the list are appended, in their order. *)
Definition append_new (cur values : list V) : list V :=
  foldl (λ acc val, if bool_decide (val ∈ acc) then acc else acc ++ [val])
        cur values.

(** One round of the loop over [dic1.items()]. *)
Definition dict_join_key (key : string) (values : list V)
    (dic0 : gmap string (list V)) : gmap string (list V) :=
  match dic0 !! key with
  | Some cur => <[key := append_new cur values]> dic0
  | None => <[key := values]> dic0
  end.

(** [dict_join(dic0, dic1)]: the dictionary that [dic0] has become when
    the function returns it.  The lists of the two dictionaries are taken
    to be distinct objects (the function stores the lists of [dic1] in
    [dic0] without copying them). *)
Definition dict_join (dic0 dic1 : gmap string (list V)) : gmap string (list V) :=
  map_fold dict_join_key dic0 dic1.

End DictJoin.

(** * om2api: unfurl *)

(** The values that a search result is made of: [None], a string, a list
    or a tuple, a dictionary, and anything else. *)
#[warnings="-register-all"]
Inductive uval :=
  | UNone
  | UStr (s : string)
  | USeq (xs : list uval)
  | UDict (d : gmap string uval)
  | UOther.

(** The exceptions of [unfurl]: the three [ValueError]s that it raises
    itself ("object must be dictionary", "Wrong number of keys in the
    dictionary [...]" with the keys, "Wrong value format") and the
    [IndexError] of [obj[object_type][0]] on an empty sequence. *)
Inductive unfurl_error :=
  | NotADictionary
  | WrongNumberOfKeys (keys : list string)
  | WrongValueFormat
  | EmptySequence.

(** [ava == None] *)
Definition is_none (v : uval) : bool :=
  match v with
  | UNone => true
  | _ => false
  end.

(** [unfurl(obj)]: the type, the identifier and the properties of an
    object instance; [{}] is [UDict ∅]. *)
Definition unfurl (obj : uval) : unfurl_error + (string * uval * uval) :=
  match obj with
  | UDict d =>
      match map_to_list d with
      | [(object_type, value)] =>
          match value with
          | USeq xs =>
              match xs with
              | [uriref; ava] =>
                  inr (object_type, uriref, if is_none ava then UDict ∅ else ava)
              | uriref :: _ => inr (object_type, uriref, UDict ∅)
              | [] => inl EmptySequence
              end
          | UStr _ => inr (object_type, value, UDict ∅)
          | _ => inl WrongValueFormat
          end
      | items => inl (WrongNumberOfKeys items.*1)
      end
  | _ => inl NotADictionary
  end.

(** * om2api: the class OM2 *)

Module OM2.

(** What a method can raise: a plain [Exception] with its message, or
    what [miroop] and the object model raise. *)
Inductive error :=
  | Exception (msg : string)
  | Raised (e : exn).

Inductive outcome (A : Type) :=
  | Returns (a : A)
  | Raises (err : error).
Arguments Returns {A} a.
Arguments Raises {A} err.

Definition API (A : Type) : Type := list Fragment → outcome A * list Fragment.

Definition api_ret {A} (a : A) : API A := λ h, (Returns a, h).
Definition api_raise {A} (err : error) : API A := λ h, (Raises err, h).
Definition api_bind {A B} (m : API A) (k : A → API B) : API B := λ h,
  match m h with
  | (Returns a, h') => k a h'
  | (Raises err, h') => (Raises err, h')
  end.

#[global] Instance API_ret : MRet API := @api_ret.
#[global] Instance API_bind : MBind API := λ A B k m, api_bind m k.

(** A step of [miroop] or of the object model inside a method. *)
Definition lift {A} (m : M A) : API A := λ h,
  match m h with
  | (Ok a, h') => (Returns a, h')
  | (Err e, h') => (Raises (Raised e), h')
  end.

Definition lift_result {A} (r : result A) : API A := λ h,
  match r with
  | Ok a => (Returns a, h)
  | Err e => (Raises (Raised e), h)
  end.

(** The attributes of an instance that the methods read: who sends, the
    default receivers, and the next hop, [None] or an object whose
    [write] returns a boolean or raises [socket.error] ([None] here). *)
Record self := mkSelf {
  sender : mval;
  receiver : mval;
  nexthop : option (string → option bool) }.

(** What a method returns: the boolean of the next hop, the message
    itself when there is no next hop, or the serialized graph. *)
Inductive sent :=
  | Ack (ok : bool)
  | Message (msg : gmap string mval)
  | RdfXml (xml : string).


Section Methods.
(** [rdf.graph("pretty-xml")], the serialization of the object model. *)
Variable graph : gmap string mval → list Fragment → string.
Variable p : none_policy.

(** [apply(self, rdf)]; the logging of the methods is left out. *)
Definition apply (s : self) (rdf : gmap string mval) : API sent := λ h,
  let rdf_xml := graph rdf h in
  match nexthop s with
  | Some write =>
      match write rdf_xml with
      | Some ok => (Returns (Ack ok), h)
      | None => (Returns (Ack false), h)          (* socket.error *)
      end
  | None => (Returns (RdfXml rdf_xml), h)
  end.

(** [if self.nexthop: return self.apply(msg) else: return msg] *)
Definition deliver (s : self) (msg : gmap string mval) : API sent :=
  match nexthop s with
  | Some _ => apply s msg
  | None => mret (Message msg)
  end.

(** [if x.about: if x.about != match.about: raise ...; x.about = None] *)
Definition same_uriref (x match_ : pyval) (k : API ()) : API () :=
  ax ← lift (getattr_about x);
  if truthy_about ax then
    ax' ← lift (getattr_about x);
    am ← lift (getattr_about match_);
    if negb (about_eqb ax' am) then
      api_raise (Exception "Mismatched urirefs not allowed")
    else
      lift (setattr_about x ANone) ;; k
  else mret ().

Definition require_match (match_ : pyval) : API () :=
  am ← lift (getattr_about match_);
  if negb (truthy_about am) then
    api_raise (Exception "Match clause without uriref not allowed")
  else mret ().

(** [replace(self, match, replace, args={})] *)
Definition replace (s : self) (match_ replace_ : pyval)
    (args : option (gmap string mval)) (now uuid : string) : API sent :=
  require_match match_ ;;
  same_uriref replace_ match_ (mret ()) ;;
  body ← lift (new_body p {["M" := match_; "R" := replace_]});
  r ← lift_result (new_message (MOper body) (sender s) (receiver s) args now uuid);
  deliver s r.1.



End Methods.

End OM2.

(** * Examples *)

Example new_body_O :
  new_body DropKey {["O" := VObj 0]} [frag "Person" "u1"]
  = (Ok {["otherwiseInsert" := SList [VObj 0]]}, [frag "Person" "u1"]).
Proof. reflexivity. Qed.

Example new_body_MO p :
  new_body p {["O" := VObj 0; "M" := VObj 1]} [frag "Person" "u1"; frag "Person" "u1"]
  = (Ok {["otherwiseInsert" := SList [VObj 0]; "match" := SList [VObj 1]]},
     [frag "Person" ""; frag "Person" "u1"]).
Proof. by destruct p. Qed.

(** * Reasoning about the monad *)

Lemma bind_unfold {A B} (m : M A) (k : A → M B) h :
  (m ≫= k) h = match m h with
               | (Ok a, h') => k a h'
               | (Err e, h') => (Err e, h')
               end.
Proof. reflexivity. Qed.

Lemma bind_ok {A B} (m : M A) (k : A → M B) h a h' :
  m h = (Ok a, h') → (m ≫= k) h = k a h'.
Proof. intros E. by rewrite bind_unfold, E. Qed.

Lemma bind_err {A B} (m : M A) (k : A → M B) h e h' :
  m h = (Err e, h') → (m ≫= k) h = (Err e, h').
Proof. intros E. by rewrite bind_unfold, E. Qed.

Lemma succeeds_ret {A} (a : A) h (Q : A → list Fragment → Prop) :
  Q a h → succeeds (mret a) h Q.
Proof. done. Qed.

Lemma succeeds_bind {A B} (m : M A) (k : A → M B) h Q :
  succeeds m h (λ a h', succeeds (k a) h' Q) → succeeds (m ≫= k) h Q.
Proof.
  unfold succeeds. rewrite bind_unfold.
  destruct (m h) as [[a|e] h']; done.
Qed.

Lemma succeeds_mono {A} (m : M A) h (Q R : A → list Fragment → Prop) :
  succeeds m h Q → (∀ a h', Q a h' → R a h') → succeeds m h R.
Proof.
  unfold succeeds. destruct (m h) as [[a|e] h']; [eauto | done].
Qed.

Lemma succeeds_eq {A} (m : M A) h Q :
  succeeds m h Q → ∃ a h', m h = (Ok a, h') ∧ Q a h'.
Proof.
  unfold succeeds. destruct (m h) as [[a|e] h']; [eauto | done].
Qed.

(** ** The store: fragments that have an [about] *)

Lemma about_kept_refl h : about_kept h h.
Proof. split; [lia | done]. Qed.

Lemma about_kept_trans h1 h2 h3 :
  about_kept h1 h2 → about_kept h2 h3 → about_kept h1 h3.
Proof. intros [? ?] [? ?]. split; [lia | eauto]. Qed.

Lemma has_about_set h l l' f a :
  h !! l' = Some f → has_about h l → has_about (<[l' := set_about a f]> h) l.
Proof.
  intros Hf (g & b & Hg & Hb).
  destruct (decide (l' = l)) as [->|Hne].
  - exists (set_about a f), a. split; [|done].
    apply list_lookup_insert_eq. by eapply lookup_lt_Some.
  - exists g, b. by rewrite list_lookup_insert_ne.
Qed.

Lemma item0_frag oper key x xs h :
  oper !! key = Some (SList (x :: xs)) → item0 oper key h = (Ok x, h).
Proof. intros E. unfold item0, getitem. by rewrite bind_unfold, E. Qed.

Lemma getattr_about_ok h l f a :
  h !! l = Some f → about_attr f = Some a →
  getattr_about (VObj l) h = (Ok a, h).
Proof. intros E1 E2. unfold getattr_about. by rewrite E1, E2. Qed.

Lemma succeeds_getattr h l (Q : about_val → list Fragment → Prop) :
  has_about h l → (∀ a, Q a h) → succeeds (getattr_about (VObj l)) h Q.
Proof.
  intros (f & a & E1 & E2) HQ. unfold succeeds.
  by rewrite (getattr_about_ok h l f a).
Qed.

Lemma succeeds_setattr h l a (Q : unit → list Fragment → Prop) :
  l < length h →
  (∀ h', about_kept h h' → has_about h' l → Q () h') →
  succeeds (setattr_about (VObj l) a) h Q.
Proof.
  intros Hl HQ. unfold succeeds, setattr_about.
  destruct (lookup_lt_is_Some_2 h l Hl) as [f Hf]. rewrite Hf.
  apply HQ.
  - split; [by rewrite length_insert | intros l'; by apply has_about_set].
  - exists (set_about a f), a. split; [|done].
    by apply list_lookup_insert_eq.
Qed.

Lemma has_about_lt h l : has_about h l → l < length h.
Proof. intros (f & a & E & _). by eapply lookup_lt_Some. Qed.

(** ** Slots that hold one fragment *)

Lemma slot_ok_kept h h' oper key :
  about_kept h h' → slot_ok h oper key → slot_ok h' oper key.
Proof.
  intros [_ Hk]. unfold slot_ok. destruct (oper !! key); [|done].
  intros (l & -> & Hl). eauto.
Qed.

Lemma slot_obj_kept h h' oper key :
  about_kept h h' → slot_obj h oper key → slot_obj h' oper key.
Proof.
  intros [Hlen _]. unfold slot_obj. destruct (oper !! key); [|done].
  intros (l & -> & Hl). exists l. split; [done | lia].
Qed.

Lemma slot_ok_obj h oper key : slot_ok h oper key → slot_obj h oper key.
Proof.
  unfold slot_ok, slot_obj. destruct (oper !! key); [|done].
  intros (l & -> & Hl). exists l. split; [done | by apply has_about_lt].
Qed.

Lemma slot_ok_item0 h oper key (Q : pyval → list Fragment → Prop) :
  slot_ok h oper key → has_key oper key = true →
  (∀ l, has_about h l → Q (VObj l) h) →
  succeeds (item0 oper key) h Q.
Proof.
  unfold slot_ok, has_key. destruct (oper !! key) as [st|] eqn:E; [|done].
  intros (l & -> & Hl) _ HQ. unfold succeeds.
  rewrite (item0_frag _ _ _ _ _ E). by apply HQ.
Qed.

Lemma verify_about_part_ok h oper part :
  slot_obj h oper part →
  succeeds (verify_about_part oper part) h
    (λ _ h', about_kept h h' ∧ slot_ok h' oper part).
Proof.
  unfold slot_obj, slot_ok, verify_about_part.
  destruct (oper !! part) as [st|] eqn:E.
  - intros (l & -> & Hl). unfold succeeds.
    rewrite (bind_ok _ _ _ _ _ (item0_frag _ _ _ _ _ E)).
    destruct (lookup_lt_is_Some_2 h l Hl) as [f Hf].
    unfold try_except. rewrite bind_unfold. unfold getattr_about at 1.
    rewrite Hf. destruct (about_attr f) as [a|] eqn:Ha; simpl.
    + split; [apply about_kept_refl | exists l; split; [done | by exists f, a]].
    + rewrite (bind_ok _ _ _ _ _ (item0_frag _ _ _ _ _ E)).
      unfold setattr_about. rewrite Hf. split.
      * split; [by rewrite length_insert | intros l'; by apply has_about_set].
      * exists l. split; [done|]. exists (set_about (AStr "") f), (AStr "").
        split; [by apply list_lookup_insert_eq | done].
  - intros _. split; [apply about_kept_refl | done].
Qed.

Lemma verify_about_ok h oper parts :
  Forall (slot_obj h oper) parts →
  succeeds (verify_about oper parts) h
    (λ _ h', about_kept h h' ∧ Forall (slot_ok h' oper) parts).
Proof.
  revert h. induction parts as [|part rest IH]; intros h Hall.
  - split; [apply about_kept_refl | constructor].
  - inversion_clear Hall as [|? ? Hp Hrest]. simpl.
    apply succeeds_bind.
    eapply succeeds_mono; [by apply verify_about_part_ok|].
    intros [] h1 [Hk1 Hok1]. simpl.
    eapply succeeds_mono.
    + apply IH. eapply List.Forall_impl; [|exact Hrest].
      intros key. simpl. by apply slot_obj_kept.
    + intros [] h2 [Hk2 Hok2]. simpl. split.
      * by eapply about_kept_trans.
      * constructor; [by eapply slot_ok_kept | done].
Qed.

Lemma fix_match_id p h oper :
  slot_ok h oper "match" → fix_match p oper h = (Ok oper, h).
Proof.
  unfold slot_ok, fix_match, getitem.
  destruct (oper !! "match") as [st|]; [|done].
  intros (l & -> & _). reflexivity.
Qed.

(** The letters of [operation oper] are its keys. *)
Lemma str_in_operation oper :
  str_in "M" (operation oper) = has_key oper "match" ∧
  str_in "I" (operation oper) = has_key oper "insert" ∧
  str_in "R" (operation oper) = has_key oper "replace" ∧
  str_in "O" (operation oper) = has_key oper "otherwiseInsert".
Proof.
  unfold operation.
  destruct (has_key oper "match"), (has_key oper "insert"),
    (has_key oper "replace"), (has_key oper "otherwiseInsert");
    vm_compute; done.
Qed.

Lemma slots_ok_parts h oper :
  Forall (slot_ok h oper) PARTS →
  slot_ok h oper "match" ∧ slot_ok h oper "insert" ∧
  slot_ok h oper "replace" ∧ slot_ok h oper "otherwiseInsert".
Proof.
  intros H. unfold PARTS in H.
  inversion_clear H as [|? ? H1 H']. inversion_clear H' as [|? ? H2 H].
  inversion_clear H as [|? ? H3 H']. inversion_clear H' as [|? ? H4 H].
  done.
Qed.

Lemma clear_slot_ok h oper key :
  slot_ok h oper key → has_key oper key = true →
  succeeds (o ← item0 oper key; setattr_about o (AStr "")) h
    (λ _ h', about_kept h h').
Proof.
  intros Hok Hk. apply succeeds_bind.
  apply (slot_ok_item0 _ _ _ _ Hok Hk). intros l Hl.
  apply succeeds_setattr; [by apply has_about_lt | done].
Qed.

Lemma clear_otherwise_ok h oper :
  Forall (slot_ok h oper) PARTS →
  succeeds (clear_otherwise oper (operation oper)) h (λ _ h', about_kept h h').
Proof.
  intros (Hm & _ & _ & Ho)%slots_ok_parts. unfold clear_otherwise.
  destruct (str_in_operation oper) as (-> & _ & _ & ->).
  destruct (has_key oper "otherwiseInsert") eqn:Ko;
    [|apply succeeds_ret, about_kept_refl].
  destruct (has_key oper "match") eqn:Km;
    [|apply succeeds_ret, about_kept_refl].
  simpl. apply succeeds_bind.
  apply (slot_ok_item0 _ _ _ _ Ho Ko). intros lo Hlo.
  apply succeeds_bind, succeeds_getattr; [done|]. intros ao.
  apply succeeds_bind.
  apply (slot_ok_item0 _ _ _ _ Hm Km). intros lm Hlm.
  apply succeeds_bind, succeeds_getattr; [done|]. intros am.
  destruct (about_eqb ao am).
  - by apply clear_slot_ok.
  - apply succeeds_ret, about_kept_refl.
Qed.

Lemma clear_replace_ok h oper :
  slot_ok h oper "match" → slot_ok h oper "replace" →
  has_key oper "match" = true → has_key oper "replace" = true →
  succeeds (clear_replace oper) h (λ _ h', h' = h).
Proof.
  intros Hm Hr Km Kr. unfold clear_replace.
  apply succeeds_bind.
  apply (slot_ok_item0 _ _ _ _ Hr Kr). intros lr Hlr.
  apply succeeds_bind, succeeds_getattr; [done|]. intros ar.
  destruct (truthy_about ar); [|by apply succeeds_ret].
  apply succeeds_bind.
  apply (slot_ok_item0 _ _ _ _ Hr Kr). intros lr' Hlr'.
  apply succeeds_bind.
  apply (slot_ok_item0 _ _ _ _ Hm Km). intros lm Hlm.
  apply succeeds_bind, succeeds_getattr; [done|]. intros am.
  simpl. by apply succeeds_ret.
Qed.

Lemma clear_insert_ok h oper :
  slot_ok h oper "insert" → has_key oper "insert" = true →
  succeeds (clear_insert oper) h (λ _ h', about_kept h h').
Proof.
  intros Hi Ki. unfold clear_insert.
  apply succeeds_bind.
  apply (slot_ok_item0 _ _ _ _ Hi Ki). intros li Hli.
  apply succeeds_bind, succeeds_getattr; [done|]. intros ai.
  destruct (truthy_about ai).
  - by apply clear_slot_ok.
  - apply succeeds_ret, about_kept_refl.
Qed.

Lemma clear_relative_ok h oper :
  Forall (slot_ok h oper) PARTS →
  succeeds (clear_relative oper (operation oper)) h (λ _ h', about_kept h h').
Proof.
  intros Hall. pose proof (slots_ok_parts _ _ Hall) as (Hm & Hi & Hr & _).
  unfold clear_relative.
  destruct (str_in_operation oper) as (-> & -> & -> & _).
  destruct (has_key oper "match") eqn:Km;
    [|apply succeeds_ret, about_kept_refl].
  apply succeeds_bind.
  destruct (has_key oper "replace") eqn:Kr.
  - eapply succeeds_mono; [by apply clear_replace_ok|].
    intros [] h' ->. simpl.
    destruct (has_key oper "insert") eqn:Ki.
    + by apply clear_insert_ok.
    + apply succeeds_ret, about_kept_refl.
  - apply succeeds_ret.
    destruct (has_key oper "insert") eqn:Ki.
    + by apply clear_insert_ok.
    + apply succeeds_ret, about_kept_refl.
Qed.

(** ** What [new_body] collects from its argument *)

Lemma collect_slot_arg p args acc names :
  collect_slot p args acc names
  = match slot_arg args names with
    | Some v => (setitem p acc.1 names.2 v, acc.2 +:+ names.1)
    | None => acc
    end.
Proof.
  destruct names as [short_name long_name]. unfold collect_slot, slot_arg. simpl.
  destruct (args !! short_name); [done|]. by destruct (args !! long_name).
Qed.

Lemma collect_construct p args : (collect p args).2 = construct_of args.
Proof.
  unfold collect, construct_of, SLOT_NAMES. cbn [foldl].
  rewrite !collect_slot_arg. cbn [fst snd].
  destruct (slot_arg args ("M", "match")), (slot_arg args ("I", "insert")),
    (slot_arg args ("R", "replace")), (slot_arg args ("O", "otherwiseInsert"));
    reflexivity.
Qed.

Lemma construct_of_cases args :
  construct_of args ∈ ALLOWEDCONSTRUCTS ∧ allowed (construct_of args) = true ∨
  construct_of args ∈ ILLEGALCONSTRUCTS ∧ allowed (construct_of args) = false.
Proof.
  unfold construct_of, SLOT_NAMES. cbn [foldl fst snd].
  destruct (slot_arg args ("M", "match")), (slot_arg args ("I", "insert")),
    (slot_arg args ("R", "replace")), (slot_arg args ("O", "otherwiseInsert"));
    cbn [String.append];
    first [ left; split; [unfold ALLOWEDCONSTRUCTS; set_solver | reflexivity]
          | right; split; [unfold ILLEGALCONSTRUCTS; set_solver | reflexivity] ].
Qed.

Lemma allowed_spec optype : allowed optype = true ↔ optype ∈ ALLOWEDCONSTRUCTS.
Proof.
  unfold allowed. rewrite existsb_exists. split.
  - intros (x & Hin & ->%String.eqb_eq). by apply list_elem_of_In.
  - intros Hin. exists optype. split; [by apply list_elem_of_In | apply String.eqb_refl].
Qed.

Lemma slot_obj_empty h key : slot_obj h ∅ key.
Proof. unfold slot_obj. by rewrite lookup_empty. Qed.

Lemma slot_obj_insert h oper key key' l :
  l < length h → slot_obj h oper key →
  slot_obj h (<[key' := SList [VObj l]]> oper) key.
Proof.
  intros Hl. unfold slot_obj. rewrite lookup_insert. case_decide; eauto.
Qed.

Lemma has_key_insert oper key key' st :
  has_key (<[key' := st]> oper) key
  = if decide (key' = key) then true else has_key oper key.
Proof. unfold has_key. rewrite lookup_insert. by case_decide. Qed.

Lemma has_key_empty key : has_key ∅ key = false.
Proof. unfold has_key. by rewrite lookup_empty. Qed.

Lemma keys_in_parts_empty : keys_in_parts ∅.
Proof. intros key. rewrite lookup_empty. by intros [? ?]. Qed.

Lemma keys_in_parts_insert key st oper :
  key ∈ PARTS → keys_in_parts oper → keys_in_parts (<[key := st]> oper).
Proof.
  intros Hin Hk key'. rewrite lookup_insert. case_decide; [by subst | apply Hk].
Qed.

Lemma PARTS_elem :
  "match" ∈ PARTS ∧ "insert" ∈ PARTS ∧ "replace" ∈ PARTS ∧
  "otherwiseInsert" ∈ PARTS.
Proof. unfold PARTS. repeat split; repeat constructor. Qed.

(** From an argument whose slots hold fragments, the loop builds an
    operation whose keys are the letters of the construct string. *)
Lemma collect_populated p h args :
  populated h args →
  ∃ oper, collect p args = (oper, operation oper) ∧
          Forall (slot_obj h oper) PARTS ∧ keys_in_parts oper.
Proof.
  unfold populated, SLOT_NAMES. intros H.
  inversion_clear H as [|? ? H1 H']. inversion_clear H' as [|? ? H2 H].
  inversion_clear H as [|? ? H3 H']. inversion_clear H' as [|? ? H4 _].
  unfold collect, SLOT_NAMES. cbn [foldl]. rewrite !collect_slot_arg.
  cbn [fst snd].
  destruct (slot_arg args ("M", "match"));
    [destruct H1 as (l1 & -> & Hl1)|];
  (destruct (slot_arg args ("I", "insert"));
    [destruct H2 as (l2 & -> & Hl2)|]);
  (destruct (slot_arg args ("R", "replace"));
    [destruct H3 as (l3 & -> & Hl3)|]);
  (destruct (slot_arg args ("O", "otherwiseInsert"));
    [destruct H4 as (l4 & -> & Hl4)|]);
  cbn [fst snd setitem String.append];
  (eexists; split; [|split];
    [ f_equal; unfold operation; rewrite ?has_key_insert, ?has_key_empty;
      repeat case_decide; try done; reflexivity
    | unfold PARTS; repeat constructor;
      repeat (apply slot_obj_insert; [done|]); apply slot_obj_empty
    | repeat (apply keys_in_parts_insert; [apply PARTS_elem|]);
      apply keys_in_parts_empty ]).
Qed.

(** ** Rejection and success of [new_body] *)

(** An argument whose construct string is not allowed is rejected before
    anything is touched, whatever its slots hold. *)
Lemma new_body_rejects p args h :
  allowed (construct_of args) = false →
  new_body p args h
  = (Err (NotAllowedConstruct (not_allowed_msg (construct_of args))), h).
Proof.
  intros Hna. unfold new_body.
  pose proof (collect_construct p args) as Hc.
  destruct (collect p args) as [oper optype]. simpl in Hc. subst optype.
  by rewrite Hna.
Qed.

Lemma new_body_accepts p args h :
  populated h args → allowed (construct_of args) = true →
  succeeds (new_body p args) h
    (λ oper h', operation oper = construct_of args ∧ oper_wf h' oper).
Proof.
  intros Hpop Hal. unfold new_body.
  pose proof (collect_construct p args) as Hc.
  destruct (collect_populated p h args Hpop) as (oper & Hcol & Hobj & Hkeys).
  rewrite Hcol in Hc |- *. simpl in Hc. rewrite Hc, Hal. cbn [negb].
  apply succeeds_bind.
  eapply succeeds_mono; [by apply verify_about_ok|].
  intros [] h1 [Hk1 Hok1]. cbv beta.
  apply succeeds_bind. unfold succeeds at 1.
  rewrite fix_match_id by (by apply slots_ok_parts in Hok1 as (? & _)).
  rewrite <- Hc.
  apply succeeds_bind.
  eapply succeeds_mono; [by apply clear_otherwise_ok|].
  intros [] h2 Hk2. cbv beta.
  assert (Forall (slot_ok h2 oper) PARTS) as Hok2.
  { eapply List.Forall_impl; [|exact Hok1]. intros key. by apply slot_ok_kept. }
  apply succeeds_bind.
  eapply succeeds_mono; [by apply clear_relative_ok|].
  intros [] h3 Hk3. cbv beta. apply succeeds_ret. split; [done|].
  split; [done|].
  eapply List.Forall_impl; [|exact Hok2]. intros key. by apply slot_ok_kept.
Qed.

(** C1.  For every argument whose supplied slots (under the single-letter
    or the full name) hold fragments, the construct string, accumulated
    in the order M, I, R, O, is one of the nine allowed constructs or one
    of the seven others; [new_body] returns an operation exactly when it
    is allowed, the operation then has that construct, and otherwise
    [NotAllowedConstruct] is raised, no operation is returned and the
    store is as it was. *)
Theorem new_body_legal_iff p h args :
  populated h args →
  (construct_of args ∈ ALLOWEDCONSTRUCTS ∨ construct_of args ∈ ILLEGALCONSTRUCTS) ∧
  ((∃ oper h', new_body p args h = (Ok oper, h')) ↔
     construct_of args ∈ ALLOWEDCONSTRUCTS) ∧
  (construct_of args ∈ ALLOWEDCONSTRUCTS →
     ∃ oper h', new_body p args h = (Ok oper, h') ∧
                operation oper = construct_of args) ∧
  (construct_of args ∈ ILLEGALCONSTRUCTS →
     new_body p args h
     = (Err (NotAllowedConstruct (not_allowed_msg (construct_of args))), h)).
Proof.
  intros Hpop.
  assert (construct_of args ∈ ALLOWEDCONSTRUCTS →
          ∃ oper h', new_body p args h = (Ok oper, h') ∧
                     operation oper = construct_of args) as Hacc.
  { intros Hal%allowed_spec.
    destruct (succeeds_eq _ _ _ (new_body_accepts p args h Hpop Hal))
      as (oper & h' & E & Hop & _). eauto. }
  assert (construct_of args ∈ ILLEGALCONSTRUCTS →
          new_body p args h
          = (Err (NotAllowedConstruct (not_allowed_msg (construct_of args))), h))
    as Hrej.
  { intros Hill. apply new_body_rejects.
    destruct (construct_of_cases args) as [[_ Hal]|[_ Hna]]; [|done].
    revert Hill Hal. generalize (construct_of args). intros s Hill.
    unfold ILLEGALCONSTRUCTS in Hill.
    repeat (apply elem_of_cons in Hill as [->|Hill]; [done|]).
    by apply elem_of_nil in Hill. }
  split; [|split; [|split]]; [| |done|done].
  - destruct (construct_of_cases args) as [[? _]|[? _]]; eauto.
  - split.
    + intros (oper & h' & E).
      destruct (construct_of_cases args) as [[? _]|[Hill _]]; [done|].
      rewrite (Hrej Hill) in E. discriminate.
    + intros Hal. destruct (Hacc Hal) as (oper & h' & E & _). eauto.
Qed.

Lemma new_body_legal_iff_witness :
  ∃ oper h', new_body DropKey {["match" := VObj 0; "R" := VObj 1]}
               [frag "Person" "A"; frag "Person" "B"] = (Ok oper, h') ∧
             operation oper = "MR".
Proof.
  assert (populated [frag "Person" "A"; frag "Person" "B"]
            {["match" := VObj 0; "R" := VObj 1]}) as Hpop.
  { unfold populated, SLOT_NAMES.
    repeat constructor; vm_compute; eauto. }
  destruct (new_body_legal_iff DropKey _ _ Hpop) as (_ & _ & Hacc & _).
  apply Hacc. vm_compute. set_solver.
Defined.

(** ** [MiroSpecException] is out of reach *)

Lemma no_miro_ret {A} (a : A) : no_miro (mret a).
Proof. intros h msg. discriminate. Qed.

Lemma no_miro_raise {A} e :
  (∀ msg, e ≠ MiroSpecException msg) → no_miro (raise (A := A) e).
Proof. intros He h msg. simpl. intros [=]. by eapply He. Qed.

Lemma no_miro_bind {A B} (m : M A) (k : A → M B) :
  no_miro m → (∀ a, no_miro (k a)) → no_miro (m ≫= k).
Proof.
  intros Hm Hk h msg. rewrite bind_unfold.
  specialize (Hm h msg). destruct (m h) as [[a|e] h']; [apply Hk|].
  simpl in *. intros [= ->]. by apply Hm.
Qed.

Lemma no_miro_try {A} (m handler : M A) e :
  no_miro m → no_miro handler → no_miro (try_except m e handler).
Proof.
  intros Hm Hh h msg. unfold try_except.
  specialize (Hm h msg). destruct (m h) as [[a|e'] h']; [done|].
  destruct (exn_eqb e e'); [apply Hh | done].
Qed.

Lemma no_miro_if {A} (b : bool) (m1 m2 : M A) :
  no_miro m1 → no_miro m2 → no_miro (if b then m1 else m2).
Proof. by destruct b. Qed.

Lemma no_miro_item0 oper key : no_miro (item0 oper key).
Proof.
  unfold item0, getitem. apply no_miro_bind.
  - destruct (oper !! key); [apply no_miro_ret | by apply no_miro_raise].
  - intros [|[|x xs]]; simpl;
      [by apply no_miro_raise | by apply no_miro_raise | apply no_miro_ret].
Qed.

Lemma no_miro_getattr x : no_miro (getattr_about x).
Proof.
  intros h msg. unfold getattr_about.
  destruct x as [| |l]; [done..|].
  destruct (h !! l) as [f|]; [|done]. by destruct (about_attr f).
Qed.

Lemma no_miro_setattr x a : no_miro (setattr_about x a).
Proof.
  intros h msg. unfold setattr_about.
  destruct x as [| |l]; [done..|]. by destruct (h !! l).
Qed.

Lemma no_miro_new_instance x : no_miro (new_instance x).
Proof.
  intros h msg. unfold new_instance.
  destruct x as [| |l]; [done..|]. by destruct (h !! l).
Qed.

Ltac no_miro_step :=
  first [ apply no_miro_ret | apply no_miro_item0 | apply no_miro_getattr
        | apply no_miro_setattr | apply no_miro_new_instance
        | apply no_miro_if | apply no_miro_try
        | apply no_miro_bind; [|intros ?] ].

Lemma no_miro_verify_about oper parts : no_miro (verify_about oper parts).
Proof.
  induction parts as [|part rest IH]; simpl; [apply no_miro_ret|].
  apply no_miro_bind; [|done].
  unfold verify_about_part. destruct (oper !! part); [|apply no_miro_ret].
  apply no_miro_bind; [apply no_miro_item0|]. intros x; destruct x;
    repeat no_miro_step.
Qed.

Lemma no_miro_derive_match oper typs m : no_miro (derive_match oper typs m).
Proof.
  induction typs as [|typ rest IH]; simpl; [apply no_miro_ret|].
  destruct (oper !! typ); [|done]. repeat no_miro_step.
Qed.

(** The handler that raises [MiroSpecException] catches [NameError], and
    the name [match] is bound when it is read. *)
Lemma no_miro_fix_match p oper : no_miro (fix_match p oper).
Proof.
  unfold fix_match. destruct (oper !! "match"); [|apply no_miro_ret].
  apply no_miro_bind.
  { unfold getitem. destruct (oper !! "match");
      [apply no_miro_ret | by apply no_miro_raise]. }
  intros st. apply no_miro_if; [|apply no_miro_ret].
  apply no_miro_bind; [apply no_miro_derive_match|].
  intros m h msg. reflexivity || discriminate.
Qed.

Lemma new_body_no_MiroSpecException p args : no_miro (new_body p args).
Proof.
  unfold new_body. destruct (collect p args) as [oper optype].
  apply no_miro_if; [by apply no_miro_raise|].
  apply no_miro_bind; [apply no_miro_verify_about|]. intros _.
  apply no_miro_bind; [apply no_miro_fix_match|]. intros oper'.
  unfold clear_otherwise, clear_relative, clear_replace, clear_insert.
  repeat no_miro_step.
Qed.

(** ** Match and replace *)

Lemma verify_about_noop h oper parts :
  Forall (slot_ok h oper) parts → verify_about oper parts h = (Ok (), h).
Proof.
  induction 1 as [|part rest Hp _ IH]; [done|]. simpl.
  rewrite bind_unfold.
  replace (verify_about_part oper part h) with (Ok (), h); [done|].
  unfold verify_about_part. unfold slot_ok in Hp.
  destruct (oper !! part) as [st|] eqn:E; [|done].
  destruct Hp as (l & -> & f & a & Hf & Ha).
  rewrite (bind_ok _ _ _ _ _ (item0_frag _ _ _ _ _ E)).
  unfold try_except. rewrite bind_unfold.
  by rewrite (getattr_about_ok _ _ _ _ Hf Ha).
Qed.

Lemma MR_oper_slots_ok h lm lr :
  has_about h lm → has_about h lr → Forall (slot_ok h (MR_oper lm lr)) PARTS.
Proof.
  intros Hm Hr. unfold PARTS.
  constructor; [|constructor; [|constructor; [|constructor; [|constructor]]]].
  - unfold slot_ok.
    change (MR_oper lm lr !! "match") with (Some (SList [VObj lm])).
    by exists lm.
  - unfold slot_ok. by change (MR_oper lm lr !! "insert") with (@None stored).
  - unfold slot_ok.
    change (MR_oper lm lr !! "replace") with (Some (SList [VObj lr])).
    by exists lr.
  - unfold slot_ok.
    by change (MR_oper lm lr !! "otherwiseInsert") with (@None stored).
Qed.

(** With a match and a replace that both have an [about], [new_body]
    changes nothing in the store: the comparison of the replace fragment
    itself with the [about] of the match is never true. *)
Lemma new_replace_body_eq p h lm lr :
  has_about h lm → has_about h lr →
  new_replace_body p (VObj lm) (VObj lr) h = (Ok (MR_oper lm lr), h).
Proof.
  intros Hm Hr. unfold new_replace_body, new_body.
  change (collect p {["R" := VObj lr; "M" := VObj lm]})
    with (MR_oper lm lr, "MR").
  cbv beta iota zeta.
  change (negb (allowed "MR")) with false. cbv iota.
  pose proof (MR_oper_slots_ok h lm lr Hm Hr) as Hok.
  pose proof (verify_about_noop _ _ _ Hok) as Hv. unfold PARTS in Hv.
  rewrite (bind_ok _ _ _ _ _ Hv).
  rewrite (bind_ok _ _ _ _ _ (fix_match_id p _ _ (proj1 (slots_ok_parts _ _ Hok)))).
  change (clear_otherwise (MR_oper lm lr) "MR") with (mret () : M ()).
  rewrite bind_unfold. cbv iota beta.
  change (clear_relative (MR_oper lm lr) "MR")
    with (clear_replace (MR_oper lm lr) ≫= λ _, (mret () : M ())).
  destruct (slots_ok_parts _ _ Hok) as (Hsm & _ & Hsr & _).
  destruct (succeeds_eq _ _ _
    (clear_replace_ok h (MR_oper lm lr) Hsm Hsr eq_refl eq_refl))
    as ([] & h' & E & ->).
  change ((mret () : M ()) h) with (Ok (), h). cbv iota.
  rewrite bind_unfold, bind_unfold, E. reflexivity.
Qed.

Lemma py_len_ok h l f :
  h !! l = Some f → py_len (VObj l) h = (Ok (size (properties f)), h).
Proof. intros E. unfold py_len. by rewrite E. Qed.

Lemma item0_MR_match lm lr h : item0 (MR_oper lm lr) "match" h = (Ok (VObj lm), h).
Proof. reflexivity. Qed.

Lemma item0_MR_replace lm lr h : item0 (MR_oper lm lr) "replace" h = (Ok (VObj lr), h).
Proof. reflexivity. Qed.

Lemma operation_MR lm lr : operation (MR_oper lm lr) = "MR".
Proof. reflexivity. Qed.

Ltac run_MR Hfm Ham Hfr Har :=
  repeat first
    [ rewrite (bind_ok _ _ _ _ _ (item0_MR_match _ _ _))
    | rewrite (bind_ok _ _ _ _ _ (item0_MR_replace _ _ _))
    | rewrite (bind_ok _ _ _ _ _ (getattr_about_ok _ _ _ _ Hfm Ham))
    | rewrite (bind_ok _ _ _ _ _ (getattr_about_ok _ _ _ _ Hfr Har))
    | rewrite (bind_ok _ _ _ _ _ (py_len_ok _ _ _ Hfm))
    | rewrite (bind_ok _ _ _ _ _ (py_len_ok _ _ _ Hfr)) ].

(** The value of [is_move_operation] on a match and replace operation. *)
Lemma is_move_operation_MR h lm lr fm fr am ar :
  h !! lm = Some fm → about_attr fm = Some am →
  h !! lr = Some fr → about_attr fr = Some ar →
  is_move_operation (MR_oper lm lr) h
  = (Ok (truthy_about am && truthy_about ar &&
         (size (properties fm) =? 0) && (size (properties fr) =? 0)), h).
Proof.
  intros Hfm Ham Hfr Har. unfold is_move_operation.
  change ((size (MR_oper lm lr) =? 2) && has_key (MR_oper lm lr) "match"
          && has_key (MR_oper lm lr) "replace") with true. cbv iota.
  run_MR Hfm Ham Hfr Har.
  destruct (truthy_about am); [|done]. run_MR Hfm Ham Hfr Har.
  destruct (truthy_about ar); [|done]. run_MR Hfm Ham Hfr Har.
  destruct (size (properties fm) =? 0); [|done]. run_MR Hfm Ham Hfr Har.
  by destruct (size (properties fr) =? 0).
Qed.

(** The value of [is_rename_operation] on a match and replace operation. *)
Lemma is_rename_operation_MR h lm lr fm fr am ar :
  h !! lm = Some fm → about_attr fm = Some am →
  h !! lr = Some fr → about_attr fr = Some ar →
  is_rename_operation (MR_oper lm lr) h
  = (Ok ((size (properties fm) =? 0) && truthy_about am &&
         (size (properties fr) =? 0) && truthy_about ar), h).
Proof.
  intros Hfm Ham Hfr Har. unfold is_rename_operation.
  rewrite operation_MR. change (String.eqb "MR" "MR") with true. cbv iota.
  run_MR Hfm Ham Hfr Har.
  destruct (size (properties fm) =? 0); [|done]. run_MR Hfm Ham Hfr Har.
  destruct (truthy_about am); [|done]. run_MR Hfm Ham Hfr Har.
  destruct (size (properties fr) =? 0); [|done]. run_MR Hfm Ham Hfr Har.
  by destruct (truthy_about ar).
Qed.

Lemma truthy_about_str s : s ≠ "" → truthy_about (AStr s) = true.
Proof.
  intros Hs. simpl. destruct (String.eqb_spec s ""); done.
Qed.

Lemma size_properties_0 (f : Fragment) :
  (size (properties f) =? 0) = true ↔ properties f = ∅.
Proof. rewrite Nat.eqb_eq. apply map_size_empty_iff. Qed.

(** C7.  From a match and a replace fragment that both have a non-empty
    [about] (equal or not; the two may even be one object), the built
    operation has construct "MR" and the store is unchanged; when both
    fragments have no asserted property [is_move_operation] and
    [is_rename_operation] both return [True], and when the replace
    fragment has at least one they both return [False]. *)
Theorem move_rename_on_built_MR p h lm lr fm fr am ar :
  h !! lm = Some fm → about_attr fm = Some (AStr am) → am ≠ "" →
  h !! lr = Some fr → about_attr fr = Some (AStr ar) → ar ≠ "" →
  ∃ oper,
    new_replace_body p (VObj lm) (VObj lr) h = (Ok oper, h) ∧
    operation oper = "MR" ∧
    (properties fm = ∅ → properties fr = ∅ →
       is_move_operation oper h = (Ok true, h) ∧
       is_rename_operation oper h = (Ok true, h)) ∧
    (properties fr ≠ ∅ →
       is_move_operation oper h = (Ok false, h) ∧
       is_rename_operation oper h = (Ok false, h)).
Proof.
  intros Hfm Ham Hm Hfr Har Hr. exists (MR_oper lm lr).
  split; [|split; [done|]].
  { apply new_replace_body_eq; [by exists fm, (AStr am) | by exists fr, (AStr ar)]. }
  rewrite (is_move_operation_MR _ _ _ _ _ _ _ Hfm Ham Hfr Har).
  rewrite (is_rename_operation_MR _ _ _ _ _ _ _ Hfm Ham Hfr Har).
  rewrite !truthy_about_str by done. split.
  - intros Em%size_properties_0 Er%size_properties_0. by rewrite Em, Er.
  - intros Hne.
    destruct (size (properties fr) =? 0) eqn:Er.
    + by apply size_properties_0 in Er.
    + by destruct (size (properties fm) =? 0).
Qed.

Lemma move_rename_on_built_MR_witness :
  ∃ oper,
    new_replace_body DropKey (VObj 0) (VObj 1)
      [frag "Person" "A"; frag "Person" "A"]
    = (Ok oper, [frag "Person" "A"; frag "Person" "A"]) ∧
    operation oper = "MR" ∧
    is_move_operation oper [frag "Person" "A"; frag "Person" "A"]
    = (Ok true, [frag "Person" "A"; frag "Person" "A"]) ∧
    is_rename_operation oper [frag "Person" "A"; frag "Person" "A"]
    = (Ok true, [frag "Person" "A"; frag "Person" "A"]).
Proof.
  destruct (move_rename_on_built_MR DropKey
              [frag "Person" "A"; frag "Person" "A"] 0 1
              (frag "Person" "A") (frag "Person" "A") "A" "A")
    as (oper & E & Hop & Hyes & _); try done.
  exists oper. split; [done|]. split; [done|]. by apply Hyes.
Defined.

(** ** Operations as four optional slots *)

Lemma lookup_put key key' o m :
  put key o m !! key'
  = if decide (key = key') then match o with Some st => Some st | None => m !! key' end
    else m !! key'.
Proof.
  unfold put. destruct o; [|by case_decide].
  rewrite lookup_insert. by case_decide.
Qed.

Lemma oper_shape oper :
  keys_in_parts oper →
  oper = from_slots (oper !! "match") (oper !! "insert")
           (oper !! "replace") (oper !! "otherwiseInsert").
Proof.
  intros Hkeys. apply map_eq. intros key. unfold from_slots.
  rewrite !lookup_put, lookup_empty.
  repeat case_decide; subst;
    try match goal with |- ?x = match ?x with _ => _ end => by destruct x end.
  destruct (oper !! key) eqn:E; [|done].
  assert (key ∈ PARTS) as Hin by (apply Hkeys; eauto).
  unfold PARTS in Hin.
  repeat (apply elem_of_cons in Hin as [->|Hin]; [done|]).
  by apply elem_of_nil in Hin.
Qed.

Lemma slot_ok_cases h oper key :
  slot_ok h oper key →
  oper !! key = None ∨
  ∃ l f a, oper !! key = Some (SList [VObj l]) ∧ h !! l = Some f ∧
           about_attr f = Some a.
Proof.
  unfold slot_ok. destruct (oper !! key); [|by left].
  intros (l & -> & f & a & ? & ?). right. by exists l, f, a.
Qed.

(** C8.  On every operation, [is_move_operation] and
    [is_rename_operation] give the same result. *)
Theorem is_move_is_rename h oper :
  oper_wf h oper → is_move_operation oper h = is_rename_operation oper h.
Proof.
  intros [Hkeys Hok]. apply slots_ok_parts in Hok as (Hm & Hi & Hr & Ho).
  rewrite (oper_shape oper Hkeys).
  destruct (slot_ok_cases _ _ _ Hm) as [->|(lm & fm & am & -> & Hfm & Ham)];
  destruct (slot_ok_cases _ _ _ Hi) as [->|(li & fi & ai & -> & Hfi & Hai)];
  destruct (slot_ok_cases _ _ _ Hr) as [->|(lr & fr & ar & -> & Hfr & Har)];
  destruct (slot_ok_cases _ _ _ Ho) as [->|(lo & fo & ao & -> & Hfo & Hao)];
  try reflexivity.
  change (from_slots (Some (SList [VObj lm])) None (Some (SList [VObj lr])) None)
    with (MR_oper lm lr).
  rewrite (is_move_operation_MR _ _ _ _ _ _ _ Hfm Ham Hfr Har).
  rewrite (is_rename_operation_MR _ _ _ _ _ _ _ Hfm Ham Hfr Har).
  by destruct (truthy_about am), (truthy_about ar),
    (size (properties fm) =? 0), (size (properties fr) =? 0).
Qed.

Lemma MR_oper_wf h lm lr :
  has_about h lm → has_about h lr → oper_wf h (MR_oper lm lr).
Proof.
  intros Hm Hr. split; [|by apply MR_oper_slots_ok].
  unfold MR_oper. rewrite <- insert_empty.
  repeat (apply keys_in_parts_insert; [apply PARTS_elem|]).
  apply keys_in_parts_empty.
Qed.

Lemma frag_has_about ty a rest : has_about (frag ty a :: rest) 0.
Proof. by exists (frag ty a), (AStr a). Qed.

Lemma is_move_is_rename_witness :
  is_move_operation (MR_oper 0 0) [frag "Person" "A"]
  = is_rename_operation (MR_oper 0 0) [frag "Person" "A"].
Proof.
  apply is_move_is_rename.
  apply MR_oper_wf; apply frag_has_about.
Defined.

(** Every operation that [new_body] builds from fragments is one of the
    data model. *)
Lemma new_body_wf p h args oper h' :
  populated h args → new_body p args h = (Ok oper, h') → oper_wf h' oper.
Proof.
  intros Hpop E.
  destruct (new_body p args h) as [[oper0|e] h0] eqn:E0; [|done].
  assert (allowed (construct_of args) = true) as Hal.
  { destruct (allowed (construct_of args)) eqn:Hal; [done|].
    rewrite (new_body_rejects p args h Hal) in E0. discriminate. }
  pose proof (new_body_accepts p args h Hpop Hal) as Hs.
  unfold succeeds in Hs. rewrite E0 in Hs. destruct Hs as [_ Hwf].
  by injection E as <- <-.
Qed.

(** ** about *)

Lemma slot_about_cases h oper key :
  slot_ok h oper key →
  oper !! key = None ∧ slot_about h oper key = None ∨
  ∃ l f a, oper !! key = Some (SList [VObj l]) ∧ h !! l = Some f ∧
           about_attr f = Some a ∧ slot_about h oper key = Some a.
Proof.
  intros [E|(l & f & a & E & Hf & Ha)]%slot_ok_cases; unfold slot_about;
    rewrite E; [by left|].
  right. exists l, f, a. by rewrite Hf.
Qed.

Lemma about_part h oper key res :
  slot_ok h oper key →
  (if has_key oper key then
     x ← item0 oper key; a ← getattr_about x; mret (res ++ [a])
   else mret res) h
  = (Ok (res ++ match slot_about h oper key with
                | Some a => [a]
                | None => []
                end), h).
Proof.
  intros [[E ->]|(l & f & a & E & Hf & Ha & ->)]%slot_about_cases;
    unfold has_key; rewrite E.
  - by rewrite app_nil_r.
  - rewrite (bind_ok _ _ _ _ _ (item0_frag _ _ _ _ _ E)).
    by rewrite (bind_ok _ _ _ _ _ (getattr_about_ok _ _ _ _ Hf Ha)).
Qed.

Lemma about_part_replace h oper key res :
  slot_ok h oper key →
  (if has_key oper key then
     r ← item0 oper key; ar ← getattr_about r;
     if truthy_about ar then
       r' ← item0 oper key; ar' ← getattr_about r'; mret (res ++ [ar'])
     else mret res
   else mret res) h
  = (Ok (res ++ match slot_about h oper key with
                | Some a => if truthy_about a then [a] else []
                | None => []
                end), h).
Proof.
  intros [[E ->]|(l & f & a & E & Hf & Ha & ->)]%slot_about_cases;
    unfold has_key; rewrite E.
  - by rewrite app_nil_r.
  - rewrite (bind_ok _ _ _ _ _ (item0_frag _ _ _ _ _ E)).
    rewrite (bind_ok _ _ _ _ _ (getattr_about_ok _ _ _ _ Hf Ha)).
    destruct (truthy_about a); [|by rewrite app_nil_r].
    rewrite (bind_ok _ _ _ _ _ (item0_frag _ _ _ _ _ E)).
    by rewrite (bind_ok _ _ _ _ _ (getattr_about_ok _ _ _ _ Hf Ha)).
Qed.

(** C9.  On every operation, [about] returns, in this order: the [about]
    of the match when the construct contains M, empty or not; the [about]
    of the replace when the construct contains R and that [about] is not
    empty; the [about] of the otherwiseInsert when the construct contains
    O, empty or not. *)
Theorem about_affected_identities h oper :
  oper_wf h oper → about oper h = (Ok (affected_identities h oper), h).
Proof.
  intros [_ Hok]. apply slots_ok_parts in Hok as (Hm & _ & Hr & Ho).
  unfold about, affected_identities. cbv zeta.
  destruct (str_in_operation oper) as (-> & _ & -> & ->).
  rewrite (bind_ok _ _ _ _ _ (about_part h oper "match" [] Hm)).
  rewrite (bind_ok _ _ _ _ _ (about_part_replace h oper "replace" _ Hr)).
  rewrite (bind_ok _ _ _ _ _ (about_part h oper "otherwiseInsert" _ Ho)).
  by rewrite <- app_assoc.
Qed.

Lemma about_affected_identities_witness :
  about (MR_oper 0 0) [frag "Person" "A"]
  = (Ok [AStr "A"; AStr "A"], [frag "Person" "A"]).
Proof.
  apply (about_affected_identities [frag "Person" "A"] (MR_oper 0 0)).
  apply MR_oper_wf; apply frag_has_about.
Defined.

(** A match and an otherwiseInsert with the same [about]: [new_body]
    clears the second, and [about] lists the empty string. *)
Lemma about_lists_empty_identity :
  ∃ oper h' res,
    new_body DropKey {["M" := VObj 0; "O" := VObj 1]}
      [frag "Person" "u"; frag "Person" "u"] = (Ok oper, h') ∧
    about oper h' = (Ok res, h') ∧
    res = [AStr "u"; AStr ""] ∧ AStr "" ∈ res.
Proof.
  eexists _, _, _. split; [reflexivity|]. split; [reflexivity|].
  split; [reflexivity|]. apply list_elem_of_further, list_elem_of_here.
Qed.

(** ** verify *)

(** C10.  [verify] returns [True] on every operation whose construct is
    allowed and whose [within_restrictions] returns, whatever boolean it
    returns.  When [within_restrictions] returns and the construct is not
    allowed, [verify] raises [NotAllowedConstruct] with the construct in
    its message, again whatever the boolean.  When [within_restrictions]
    raises, [verify] raises the same exception, also on a construct that
    is not allowed: that check comes first.  [verify] raises nothing
    else. *)
Theorem verify_ignores_restrictions
    (within_restrictions : gmap string stored → M bool) oper h :
  (∀ b h', within_restrictions oper h = (Ok b, h') →
           operation oper ∈ ALLOWEDCONSTRUCTS →
           verify within_restrictions oper h = (Ok true, h')) ∧
  (∀ b h', within_restrictions oper h = (Ok b, h') →
           operation oper ∉ ALLOWEDCONSTRUCTS →
           verify within_restrictions oper h =
             (Err (NotAllowedConstruct (verify_msg (operation oper))), h')) ∧
  (∀ e h', within_restrictions oper h = (Err e, h') →
           verify within_restrictions oper h = (Err e, h')) ∧
  (∀ e h', verify within_restrictions oper h = (Err e, h') →
           within_restrictions oper h = (Err e, h') ∨
           ∃ b, within_restrictions oper h = (Ok b, h') ∧
                (operation oper ∉ ALLOWEDCONSTRUCTS) ∧
                e = NotAllowedConstruct (verify_msg (operation oper))).
Proof.
  unfold verify. split; [|split; [|split]].
  - intros b h' E Hal%allowed_spec. by rewrite bind_unfold, E, Hal.
  - intros b h' E Hnot. rewrite bind_unfold, E.
    destruct (allowed (operation oper)) eqn:Hal; [|done].
    by apply allowed_spec in Hal.
  - intros e h' E. by rewrite bind_unfold, E.
  - intros e h'. rewrite bind_unfold.
    destruct (within_restrictions oper h) as [[b|e'] h''].
    + destruct (allowed (operation oper)) eqn:Hal; simpl; [done|].
      intros [= <- <-]. right. exists b. split; [done|]. split; [|done].
      intros Hin%allowed_spec. congruence.
    + intros [= <- <-]. by left.
Qed.

Lemma verify_ignores_restrictions_witness :
  verify (λ _ h, (Ok false, h)) (MR_oper 0 1) [] = (Ok true, []).
Proof.
  apply (proj1 (verify_ignores_restrictions
                  (λ _ h, (Ok false, h)) (MR_oper 0 1) []) false []).
  - reflexivity.
  - rewrite operation_MR. unfold ALLOWEDCONSTRUCTS.
    do 3 apply list_elem_of_further. apply list_elem_of_here.
Defined.

(** * The match slot left to [new_body] *)

(** C2.  A match supplied as [None] next to an insert whose [about] is
    "u1": no match is derived.  When the bag does not keep the key, the
    result has no match and the insert has lost its [about]; when it keeps
    it, [_verify_about] reads item 0 of the match before the derivation
    is reached and an exception leaves [new_body]. *)
Theorem new_body_match_none_insert p :
  new_body p {["M" := VNone; "I" := VObj 0]} [frag "Person" "u1"]
  = match p with
    | DropKey => (Ok {["insert" := SList [VObj 0]]}, [frag "Person" ""])
    | StoreNone => (Err TypeError, [frag "Person" "u1"])
    | StoreEmpty => (Err IndexError, [frag "Person" "u1"])
    | StoreNoneItem => (Err AttributeError, [frag "Person" "u1"])
    end.
Proof. by destruct p. Qed.

(** The input of the module's own doctest, [new_body({"O": p, "M": None})]. *)
Example new_body_match_none_otherwise p :
  new_body p {["O" := VObj 0; "M" := VNone]} [frag "Person" "u1"]
  = (Err match p with
         | DropKey => KeyError
         | StoreNone => TypeError
         | StoreEmpty => IndexError
         | StoreNoneItem => AttributeError
         end, [frag "Person" "u1"]).
Proof. by destruct p. Qed.

(** [new_insert_body] derives the match itself, and leaves [None] in the
    [about] of the insert. *)
Example new_insert_body_derives p :
  new_insert_body p (VObj 0) VNone [frag "Person" "u1"]
  = (Ok {["match" := SList [VObj 1]; "insert" := SList [VObj 0]]},
     [mkFragment "Person" (Some ANone) ∅; frag "Person" "u1"]).
Proof. by destruct p. Qed.

(** C3.  A replace whose [about] restates the one of the match keeps it:
    the store after [new_body] is the store before. *)
Theorem new_body_keeps_restated_replace_about p :
  new_body p {["M" := VObj 0; "R" := VObj 1]}
    [frag "Person" "A"; frag "Person" "A"]
  = (Ok (MR_oper 0 1), [frag "Person" "A"; frag "Person" "A"]) ∧
  slot_about [frag "Person" "A"; frag "Person" "A"] (MR_oper 0 1) "match"
  = Some (AStr "A") ∧
  slot_about [frag "Person" "A"; frag "Person" "A"] (MR_oper 0 1) "replace"
  = Some (AStr "A").
Proof. by destruct p. Qed.

(** C4.  A match supplied as [None] and nothing else: no
    [MiroSpecException].  When the bag does not keep the key an operation
    without any slot is returned; when it keeps it, an exception of
    [_verify_about] leaves [new_body]. *)
Theorem new_body_match_none_alone p :
  new_body p {["M" := VNone]} []
  = match p with
    | DropKey => (Ok ∅, [])
    | StoreNone => (Err TypeError, [])
    | StoreEmpty => (Err IndexError, [])
    | StoreNoneItem => (Err AttributeError, [])
    end.
Proof. by destruct p. Qed.

(** * The message envelope *)

Lemma merge_field_copied sender receiver key val msg :
  merge_field sender receiver key val msg
  = if copied sender receiver key then <[key := val]> msg else msg.
Proof.
  unfold merge_field, copied, msg_setitem.
  destruct (truthy_mval sender && String.eqb key "sender"); [done|].
  destruct (truthy_mval receiver && String.eqb key "receiver"); [done|].
  by destruct (String.eqb key "body").
Qed.

(** A field of the message after the loop: the entry of [args] when the
    key is copied and [args] has one, else the field as it was. *)
Lemma lookup_merge sender receiver (msg a : gmap string mval) key :
  map_fold (merge_field sender receiver) msg a !! key
  = if copied sender receiver key then
      match a !! key with
      | Some v => Some v
      | None => msg !! key
      end
    else msg !! key.
Proof.
  apply (map_fold_weak_ind (λ r m,
    r !! key = if copied sender receiver key then
                 match m !! key with
                 | Some v => Some v
                 | None => msg !! key
                 end
               else msg !! key)).
  - rewrite lookup_empty. by destruct (copied sender receiver key).
  - intros i x m r Hi IH. rewrite merge_field_copied.
    destruct (decide (i = key)) as [->|Hne].
    + destruct (copied sender receiver key).
      * by rewrite !lookup_insert_eq.
      * done.
    + rewrite (lookup_insert_ne m) by done.
      destruct (copied sender receiver i); [|done].
      by rewrite lookup_insert_ne.
Qed.

(** C5.  [new_message] raises nothing: for every sender, empty or not, it
    returns a message; and when [args] has no entry under "source", the
    field [source] of that message is the sender. *)
Theorem new_message_source oper sender receiver args now uuid :
  ∃ msg args',
    new_message oper sender receiver args now uuid = Ok (msg, args') ∧
    (no_entry args "source" → msg !! "source" = Some sender).
Proof.
  unfold new_message, msg_setitem.
  set (msg0 := <["createTime" := MStr now]> _).
  assert (msg0 !! "source" = Some sender) as H0.
  { unfold msg0. rewrite lookup_insert_ne by done.
    destruct (truthy_mval receiver).
    - rewrite lookup_insert_ne by done. by rewrite lookup_insert_eq.
    - by rewrite lookup_insert_eq. }
  clearbody msg0.
  destruct args as [a|]; simpl.
  - destruct (a !! "mid") as [mid|] eqn:Emid.
    + eexists _, _. split; [reflexivity|]. intros Hno.
      destruct (negb (size (delete "mid" a) =? 0)).
      * rewrite lookup_merge, lookup_delete_ne, Hno by done.
        rewrite lookup_insert_ne by done.
        by destruct (copied sender receiver "source").
      * by rewrite lookup_insert_ne.
    + eexists _, _. split; [reflexivity|]. intros Hno.
      destruct (negb (size a =? 0)).
      * rewrite lookup_merge, Hno. rewrite lookup_insert_ne by done.
        by destruct (copied sender receiver "source").
      * by rewrite lookup_insert_ne.
  - eexists _, _. split; [reflexivity|]. intros _. by rewrite lookup_insert_ne.
Qed.

Lemma new_message_source_witness :
  ∃ msg args',
    new_message (MOper (MR_oper 0 1)) (MStr "s1") MNone
      (Some {["mid" := MStr "m1"]}) "2009-08-28T12:00:00" "uuid"
    = Ok (msg, args') ∧
    msg !! "source" = Some (MStr "s1").
Proof.
  destruct (new_message_source (MOper (MR_oper 0 1)) (MStr "s1") MNone
              (Some {["mid" := MStr "m1"]}) "2009-08-28T12:00:00" "uuid")
    as (msg & args' & E & Hsrc).
  exists msg, args'. split; [exact E|]. apply Hsrc. reflexivity.
Defined.

(** An empty sender, and no sender at all: a message is returned. *)
Lemma new_message_empty_sender :
  (∃ msg args',
     new_message (MOper (MR_oper 0 1)) (MStr "") MNone None "now" "uuid"
     = Ok (msg, args') ∧ msg !! "source" = Some (MStr "")) ∧
  (∃ msg args',
     new_message (MOper (MR_oper 0 1)) MNone MNone None "now" "uuid"
     = Ok (msg, args') ∧ msg !! "source" = Some MNone).
Proof. split; eexists _, _; split; reflexivity. Qed.

(** C6.  An entry of [args] under "source" replaces the sender, and an
    entry under "sender" is the one that is dropped. *)
Theorem new_message_source_overwritten :
  (∃ msg args',
     new_message (MOper (MR_oper 0 1)) (MStr "s1") MNone
       (Some {["source" := MStr "x"]}) "now" "uuid" = Ok (msg, args') ∧
     msg !! "source" = Some (MStr "x")) ∧
  (∃ msg args',
     new_message (MOper (MR_oper 0 1)) (MStr "s1") MNone
       (Some {["sender" := MStr "x"]}) "now" "uuid" = Ok (msg, args') ∧
     msg !! "source" = Some (MStr "s1") ∧ msg !! "sender" = None).
Proof.
  split; eexists _, _; (split; [reflexivity|]); [|split]; reflexivity.
Qed.

Lemma copied_body sender receiver : copied sender receiver "body" = false.
Proof.
  unfold copied. by destruct (truthy_mval sender), (truthy_mval receiver).
Qed.

Lemma copied_receiver sender receiver :
  truthy_mval receiver = true → copied sender receiver "receiver" = false.
Proof. unfold copied. intros ->. by destruct (truthy_mval sender). Qed.

(** The body and a non-empty receiver are out of reach of [args]: the
    field [body] is the operation when it is not empty and is absent
    otherwise, whatever [args] holds under "body". *)
Lemma new_message_body_receiver oper sender receiver args now uuid msg args' :
  new_message oper sender receiver args now uuid = Ok (msg, args') →
  msg !! "body" = (if truthy_mval oper then Some oper else None) ∧
  (truthy_mval receiver = true → msg !! "receiver" = Some receiver).
Proof.
  unfold new_message, msg_setitem.
  set (msg0 := <["createTime" := MStr now]> _).
  assert (msg0 !! "body" = (if truthy_mval oper then Some oper else None) ∧
          (truthy_mval receiver = true → msg0 !! "receiver" = Some receiver))
    as [Hb Hr].
  { unfold msg0. split.
    - rewrite lookup_insert_ne by done.
      destruct (truthy_mval receiver), (truthy_mval oper);
        rewrite ?(lookup_insert_ne _ "receiver"), ?(lookup_insert_ne _ "source")
          by done; by rewrite ?lookup_insert_eq.
    - intros ->. rewrite lookup_insert_ne by done. by rewrite lookup_insert_eq. }
  clearbody msg0. intros E.
  assert (∀ (v : mval) (a : gmap string mval) key,
            key ≠ "mid" → copied sender receiver key = false →
            (if negb (size a =? 0)
             then map_fold (merge_field sender receiver) (<["mid" := v]> msg0) a
             else <["mid" := v]> msg0) !! key = msg0 !! key) as Hkeep'.
  { intros v a key Hne Hc. destruct (negb (size a =? 0)).
    - rewrite lookup_merge, Hc. by rewrite lookup_insert_ne.
    - by rewrite lookup_insert_ne. }
  destruct args as [a|]; simpl in E.
  - destruct (a !! "mid") as [mid|]; injection E as <- <-.
    + split.
      * rewrite Hkeep' by (done || apply copied_body). done.
      * intros Ht. rewrite Hkeep' by (done || by apply copied_receiver). auto.
    + split.
      * rewrite Hkeep' by (done || apply copied_body). done.
      * intros Ht. rewrite Hkeep' by (done || by apply copied_receiver). auto.
  - injection E as <- <-. split.
    + by rewrite lookup_insert_ne.
    + intros Ht. rewrite lookup_insert_ne by done. auto.
Qed.


(** * A match supplied as [None], in general *)

Lemma lookup_setitem_ne p oper key key' v :
  key ≠ key' → setitem p oper key v !! key' = oper !! key'.
Proof.
  intros Hne. unfold setitem.
  destruct v, p; by rewrite ?lookup_insert_ne, ?lookup_delete_ne.
Qed.

(** What the loop leaves in the match slot when the argument supplies
    [None] for it. *)
Lemma collect_match_none p args :
  slot_arg args ("M", "match") = Some VNone →
  (collect p args).1 !! "match"
  = match p with
    | DropKey => None
    | StoreNone => Some SNone
    | StoreEmpty => Some (SList [])
    | StoreNoneItem => Some (SList [VNone])
    end.
Proof.
  intros HM. unfold collect, SLOT_NAMES. cbn [foldl].
  rewrite !collect_slot_arg, HM. cbn [fst snd].
  assert (setitem p ∅ "match" VNone !! "match"
          = match p with
            | DropKey => None
            | StoreNone => Some SNone
            | StoreEmpty => Some (SList [])
            | StoreNoneItem => Some (SList [VNone])
            end) as H0 by (by destruct p).
  destruct (slot_arg args ("I", "insert")),
    (slot_arg args ("R", "replace")),
    (slot_arg args ("O", "otherwiseInsert"));
    cbn [fst snd]; by rewrite ?lookup_setitem_ne by done.
Qed.

Lemma bind_ok_inv {A B} (m : M A) (k : A → M B) h b h' :
  (m ≫= k) h = (Ok b, h') →
  ∃ a h1, m h = (Ok a, h1) ∧ k a h1 = (Ok b, h').
Proof.
  rewrite bind_unfold. destruct (m h) as [[a|e] h1]; [eauto | done].
Qed.

(** Whenever the argument supplies [None] for the match, whatever the
    other slots hold, [new_body] returns an operation only when the
    container does not keep the key, and that operation has no match:
    the derivation is never performed. *)
Lemma new_body_match_none_never_derived p args h oper h' :
  slot_arg args ("M", "match") = Some VNone →
  new_body p args h = (Ok oper, h') →
  p = DropKey ∧ oper !! "match" = None.
Proof.
  intros HM E. pose proof (collect_match_none p args HM) as Hc.
  unfold new_body in E. destruct (collect p args) as [oper0 optype].
  simpl in Hc. destruct (negb (allowed optype)); [done|].
  apply bind_ok_inv in E as ([] & h1 & Ev & E).
  cbn [verify_about] in Ev.
  apply bind_ok_inv in Ev as ([] & h2 & Ev & _).
  unfold verify_about_part in Ev. rewrite Hc in Ev.
  destruct p; [|by exfalso; unfold item0, getitem in Ev; rewrite Hc in Ev..].
  split; [done|].
  apply bind_ok_inv in E as (oper' & h3 & Ef & E).
  unfold fix_match in Ef. rewrite Hc in Ef. injection Ef as <- <-.
  apply bind_ok_inv in E as ([] & h4 & _ & E).
  apply bind_ok_inv in E as ([] & h5 & _ & E).
  by injection E as <- <-.
Qed.

(** * An entry under "source", in general *)

Lemma copied_source sender receiver : copied sender receiver "source" = true.
Proof.
  unfold copied. by destruct (truthy_mval sender), (truthy_mval receiver).
Qed.

Lemma size_lookup_Some (a : gmap string mval) key v :
  a !! key = Some v → negb (size a =? 0) = true.
Proof.
  intros E. destruct (size a =? 0) eqn:Hs; [|done].
  apply Nat.eqb_eq, map_size_empty_iff in Hs. subst a.
  by rewrite lookup_empty in E.
Qed.

(** Whatever the sender, an entry of [args] under "source" is the
    [source] of the message. *)
Lemma new_message_source_from_args oper sender receiver a v now uuid :
  a !! "source" = Some v →
  ∃ msg args',
    new_message oper sender receiver (Some a) now uuid = Ok (msg, args') ∧
    msg !! "source" = Some v.
Proof.
  intros Hsrc. unfold new_message, msg_setitem.
  set (msg0 := <["createTime" := MStr now]> _). clearbody msg0.
  destruct (a !! "mid") as [mid|] eqn:Emid.
  - eexists _, _. split; [reflexivity|].
    assert (delete "mid" a !! "source" = Some v) as Hd
      by (by rewrite lookup_delete_ne).
    rewrite (size_lookup_Some _ _ _ Hd).
    by rewrite lookup_merge, copied_source, Hd.
  - eexists _, _. split; [reflexivity|].
    rewrite (size_lookup_Some _ _ _ Hsrc).
    by rewrite lookup_merge, copied_source, Hsrc.
Qed.

(** * What [new_body] does to the store *)

Lemma only_clears_refl h : only_clears h h.
Proof. split; [done|]. intros l f Hf. exists f. auto. Qed.

Lemma only_clears_trans h1 h2 h3 :
  only_clears h1 h2 → only_clears h2 h3 → only_clears h1 h3.
Proof.
  intros [L1 H1] [L2 H2]. split; [congruence|].
  intros l f Hf.
  destruct (H1 l f Hf) as (f2 & Hf2 & Ht2 & Hp2 & Ha2).
  destruct (H2 l f2 Hf2) as (f3 & Hf3 & Ht3 & Hp3 & Ha3).
  exists f3. split; [done|]. split; [congruence|]. split; [congruence|].
  destruct Ha3 as [Ha3|Ha3]; [|by right].
  rewrite Ha3. exact Ha2.
Qed.

Lemma only_clears_set h l f :
  h !! l = Some f → only_clears h (<[l := set_about (AStr "") f]> h).
Proof.
  intros Hf. split; [by rewrite length_insert|].
  intros l' f' Hf'. destruct (decide (l = l')) as [->|Hne].
  - exists (set_about (AStr "") f).
    rewrite list_lookup_insert_eq by (by eapply lookup_lt_Some).
    assert (f' = f) as -> by congruence. auto.
  - exists f'. rewrite list_lookup_insert_ne by done. auto.
Qed.

Lemma clears_only_ret {A} (a : A) : clears_only (mret a).
Proof. intros h. apply only_clears_refl. Qed.

Lemma clears_only_raise {A} e : clears_only (raise (A := A) e).
Proof. intros h. apply only_clears_refl. Qed.

Lemma clears_only_bind {A B} (m : M A) (k : A → M B) :
  clears_only m → (∀ a, clears_only (k a)) → clears_only (m ≫= k).
Proof.
  intros Hm Hk h. rewrite bind_unfold. specialize (Hm h).
  destruct (m h) as [[a|e] h1]; [|done].
  eapply only_clears_trans; [exact Hm | apply Hk].
Qed.

Lemma clears_only_try {A} (m handler : M A) e :
  clears_only m → clears_only handler → clears_only (try_except m e handler).
Proof.
  intros Hm Hh h. unfold try_except. specialize (Hm h).
  destruct (m h) as [[a|e'] h1]; [done|].
  destruct (exn_eqb e e'); [|done].
  eapply only_clears_trans; [exact Hm | apply Hh].
Qed.

Lemma clears_only_if {A} (b : bool) (m1 m2 : M A) :
  clears_only m1 → clears_only m2 → clears_only (if b then m1 else m2).
Proof. by destruct b. Qed.

Lemma clears_only_item0 oper key : clears_only (item0 oper key).
Proof.
  intros h. unfold item0, getitem. rewrite bind_unfold.
  destruct (oper !! key) as [[|[|x xs]]|]; apply only_clears_refl.
Qed.

Lemma clears_only_getattr x : clears_only (getattr_about x).
Proof.
  intros h. unfold getattr_about. destruct x as [| |l]; try apply only_clears_refl.
  destruct (h !! l) as [f|]; [|apply only_clears_refl].
  destruct (about_attr f); apply only_clears_refl.
Qed.

Lemma clears_only_setattr x : clears_only (setattr_about x (AStr "")).
Proof.
  intros h. unfold setattr_about. destruct x as [| |l]; try apply only_clears_refl.
  destruct (h !! l) as [f|] eqn:Hf; [|apply only_clears_refl].
  by apply only_clears_set.
Qed.

Ltac clears_only_step :=
  first [ apply clears_only_ret | apply clears_only_raise
        | apply clears_only_item0 | apply clears_only_getattr
        | apply clears_only_setattr | apply clears_only_if
        | apply clears_only_try | apply clears_only_bind; [|intros ?] ].

Lemma clears_only_verify_about oper parts : clears_only (verify_about oper parts).
Proof.
  induction parts as [|part rest IH]; simpl; [apply clears_only_ret|].
  apply clears_only_bind; [|done].
  unfold verify_about_part. destruct (oper !! part); [|apply clears_only_ret].
  apply clears_only_bind; [apply clears_only_item0|].
  intros x; destruct x; repeat clears_only_step.
Qed.

Lemma clears_only_clear_otherwise oper optype :
  clears_only (clear_otherwise oper optype).
Proof. unfold clear_otherwise. repeat clears_only_step. Qed.

Lemma clears_only_clear_relative oper optype :
  clears_only (clear_relative oper optype).
Proof.
  unfold clear_relative, clear_replace, clear_insert. repeat clears_only_step.
Qed.

(** Once [_verify_about] has returned, the match slot is not set or holds
    an item: the derivation of a match is never entered. *)
Lemma fix_match_after_verify p oper rest h h1 :
  verify_about oper ("match" :: rest) h = (Ok (), h1) →
  ∀ h2, fix_match p oper h2 = (Ok oper, h2).
Proof.
  cbn [verify_about]. intros E h2.
  apply bind_ok_inv in E as ([] & h' & E & _).
  unfold verify_about_part in E. unfold fix_match, getitem.
  destruct (oper !! "match") as [st|] eqn:Em; [|done].
  unfold item0, getitem in E. rewrite Em in E.
  by destruct st as [|[|x xs]].
Qed.

(** The steps of a call of [new_body] that returns. *)
Lemma new_body_inv p args h oper h' :
  new_body p args h = (Ok oper, h') →
  oper = (collect p args).1 ∧
  allowed (construct_of args) = true ∧
  ∃ h1 h2,
    verify_about oper ["match"; "insert"; "replace"; "otherwiseInsert"] h
    = (Ok (), h1) ∧
    clear_otherwise oper (construct_of args) h1 = (Ok (), h2) ∧
    clear_relative oper (construct_of args) h2 = (Ok (), h').
Proof.
  unfold new_body. rewrite <- (collect_construct p args).
  destruct (collect p args) as [oper0 optype]. cbn [fst snd].
  destruct (allowed optype); [|done]. cbn [negb].
  intros E. apply bind_ok_inv in E as ([] & h1 & Ev & E).
  rewrite (bind_ok _ _ _ _ _ (fix_match_after_verify p _ _ _ _ Ev h1)) in E.
  apply bind_ok_inv in E as ([] & h2 & Eo & E).
  apply bind_ok_inv in E as ([] & h3 & Er & E).
  injection E as <- <-. split; [done|]. split; [done|]. by exists h1, h2.
Qed.

(** X1.  Whatever the argument and whatever the outcome, [new_body] adds
    and removes no fragment, changes no class and no property, and
    changes an [about] only by making it the empty string. *)
Theorem new_body_only_clears p args : clears_only (new_body p args).
Proof.
  intros h. unfold new_body.
  destruct (collect p args) as [oper optype].
  destruct (negb (allowed optype)); [apply only_clears_refl|].
  rewrite bind_unfold.
  pose proof (clears_only_verify_about oper
    ["match"; "insert"; "replace"; "otherwiseInsert"] h) as Hv.
  destruct (verify_about oper _ h) as [[[]|e] h1] eqn:Ev; [|done].
  eapply only_clears_trans; [exact Hv|]. clear Hv.
  rewrite (bind_ok _ _ _ _ _ (fix_match_after_verify p _ _ _ _ Ev h1)).
  revert h1 Ev. intros h1 _. revert h1.
  change (clears_only (clear_otherwise oper optype
                       ≫= λ _, clear_relative oper optype ≫= λ _, mret oper)).
  apply clears_only_bind; [apply clears_only_clear_otherwise|]. intros _.
  apply clears_only_bind; [apply clears_only_clear_relative|]. intros _.
  apply clears_only_ret.
Qed.

(** ** The slots and the letters that the loop of [new_body] sets *)

Lemma lookup_setitem_eq p oper key v :
  setitem p oper key v !! key = setitem p ∅ key v !! key.
Proof.
  unfold setitem. destruct v, p; by rewrite ?lookup_insert_eq, ?lookup_delete_eq.
Qed.

(** Slot by slot, the operation that the loop fills holds what the
    argument supplies. *)
Lemma collect_lookup p args names :
  names ∈ SLOT_NAMES →
  (collect p args).1 !! names.2
  = match slot_arg args names with
    | Some v => setitem p ∅ names.2 v !! names.2
    | None => None
    end.
Proof.
  intros Hin. unfold collect, SLOT_NAMES in *. cbn [foldl].
  rewrite !collect_slot_arg. cbn [fst snd].
  repeat (apply elem_of_cons in Hin as [->|Hin]);
    [..|by apply elem_of_nil in Hin];
    cbn [fst snd];
    destruct (slot_arg args ("M", "match")),
      (slot_arg args ("I", "insert")),
      (slot_arg args ("R", "replace")),
      (slot_arg args ("O", "otherwiseInsert"));
    cbn [fst snd];
    rewrite ?lookup_setitem_ne by done;
    by rewrite ?lookup_setitem_eq, ?lookup_empty.
Qed.

Lemma collect_lookup_obj p args names l :
  names ∈ SLOT_NAMES → slot_arg args names = Some (VObj l) →
  (collect p args).1 !! names.2 = Some (SList [VObj l]).
Proof.
  intros Hin E. rewrite (collect_lookup p args names Hin), E.
  unfold setitem. by rewrite lookup_insert_eq.
Qed.

(** A letter is in the construct string exactly when its slot is
    supplied. *)
Lemma construct_of_letters args :
  str_in "M" (construct_of args)
  = bool_decide (is_Some (slot_arg args ("M", "match"))) ∧
  str_in "I" (construct_of args)
  = bool_decide (is_Some (slot_arg args ("I", "insert"))) ∧
  str_in "R" (construct_of args)
  = bool_decide (is_Some (slot_arg args ("R", "replace"))) ∧
  str_in "O" (construct_of args)
  = bool_decide (is_Some (slot_arg args ("O", "otherwiseInsert"))).
Proof.
  unfold construct_of, SLOT_NAMES. cbn [foldl fst snd].
  destruct (slot_arg args ("M", "match")), (slot_arg args ("I", "insert")),
    (slot_arg args ("R", "replace")), (slot_arg args ("O", "otherwiseInsert"));
    repeat split; reflexivity.
Qed.

Lemma SLOT_NAMES_elem :
  ("M", "match") ∈ SLOT_NAMES ∧ ("I", "insert") ∈ SLOT_NAMES ∧
  ("R", "replace") ∈ SLOT_NAMES ∧ ("O", "otherwiseInsert") ∈ SLOT_NAMES.
Proof. unfold SLOT_NAMES. repeat split; repeat constructor. Qed.

Lemma getattr_about_same x h r h' : getattr_about x h = (r, h') → h' = h.
Proof.
  unfold getattr_about. destruct x as [| |l]; try (by intros [= _ <-]).
  destruct (h !! l) as [f|]; [|by intros [= _ <-]].
  by destruct (about_attr f); intros [= _ <-].
Qed.

Lemma item0_same oper key h r h' : item0 oper key h = (r, h') → h' = h.
Proof.
  unfold item0, getitem. rewrite bind_unfold.
  by destruct (oper !! key) as [[|[|x xs]]|]; intros [= _ <-].
Qed.

Lemma item0_det oper key h x h' :
  item0 oper key h = (Ok x, h') → ∀ h2, item0 oper key h2 = (Ok x, h2).
Proof.
  unfold item0, getitem. rewrite bind_unfold.
  destruct (oper !! key) as [[|[|y ys]]|]; try done.
  by intros [= <- _] h2.
Qed.

(** [clear_replace] never changes the store: the comparison of line 125
    is true only for an item that has no [about] to clear. *)
Lemma clear_replace_same oper h r h' : clear_replace oper h = (r, h') → h' = h.
Proof.
  unfold clear_replace. intros E. rewrite bind_unfold in E.
  destruct (item0 oper "replace" h) as [[x|e] h0] eqn:E0;
    pose proof (item0_same _ _ _ _ _ E0) as ->; [|by injection E as _ <-].
  rewrite bind_unfold in E.
  destruct (getattr_about x h) as [[ar|e] h0] eqn:E1;
    pose proof (getattr_about_same _ _ _ _ E1) as ->; [|by injection E as _ <-].
  destruct (truthy_about ar); [|by injection E as _ <-].
  rewrite (bind_ok _ _ _ _ _ E0), bind_unfold in E.
  destruct (item0 oper "match" h) as [[y|e] h0] eqn:E2;
    pose proof (item0_same _ _ _ _ _ E2) as ->; [|by injection E as _ <-].
  rewrite bind_unfold in E.
  destruct (getattr_about y h) as [[am|e] h0] eqn:E3;
    pose proof (getattr_about_same _ _ _ _ E3) as ->; [|by injection E as _ <-].
  destruct x as [| |l]; [done..|].
  simpl in E. by injection E as _ <-.
Qed.

(** What a call of [clear_insert] that returns leaves in the insert. *)
Lemma clear_insert_inv oper h h' li :
  oper !! "insert" = Some (SList [VObj li]) →
  clear_insert oper h = (Ok (), h') →
  ∃ f a, h !! li = Some f ∧ about_attr f = Some a ∧
         h' = if truthy_about a then <[li := set_about (AStr "") f]> h else h.
Proof.
  intros Ei. unfold clear_insert.
  rewrite (bind_ok _ _ _ _ _ (item0_frag _ _ _ _ _ Ei)).
  rewrite bind_unfold. unfold getattr_about at 1.
  destruct (h !! li) as [f|] eqn:Hf; [|done].
  destruct (about_attr f) as [a|] eqn:Ha; [|done].
  intros E. exists f, a. split; [done|]. split; [done|].
  destruct (truthy_about a).
  - rewrite (bind_ok _ _ _ _ _ (item0_frag _ _ _ _ _ Ei)) in E.
    unfold setattr_about in E. rewrite Hf in E. by injection E as <-.
  - by injection E as <-.
Qed.

(** X2.  When the argument supplies a match (of any kind) and a fragment
    as insert, every call of [new_body] that returns leaves the insert
    with an empty [about]: [None] or the empty string. *)
Theorem new_body_insert_about_empty p args h oper h' vm li :
  slot_arg args ("M", "match") = Some vm →
  slot_arg args ("I", "insert") = Some (VObj li) →
  new_body p args h = (Ok oper, h') →
  ∃ f a, h' !! li = Some f ∧ about_attr f = Some a ∧ about_empty a.
Proof.
  intros HM HI E.
  apply new_body_inv in E as (-> & _ & h1 & h2 & _ & _ & Er).
  pose proof (collect_lookup_obj p args ("I", "insert") li
                (proj1 (proj2 SLOT_NAMES_elem)) HI) as Ei.
  cbn [snd] in Ei. set (oper := (collect p args).1) in *.
  unfold clear_relative in Er.
  destruct (construct_of_letters args) as (EM & EI & _ & _).
  rewrite EM, EI, HM, HI in Er.
  rewrite !bool_decide_eq_true_2 in Er by eauto.
  apply bind_ok_inv in Er as ([] & h3 & _ & Er).
  destruct (clear_insert_inv _ _ _ _ Ei Er) as (f & a & Hf & Ha & ->).
  destruct (truthy_about a) eqn:Ht.
  - exists (set_about (AStr "") f), (AStr ""). split; [|done].
    apply list_lookup_insert_eq. by eapply lookup_lt_Some.
  - by exists f, a.
Qed.

Lemma new_body_insert_about_empty_witness :
  ∃ f a,
    (new_body DropKey {["M" := VObj 0; "I" := VObj 1]}
       [frag "Person" "u1"; frag "Person" "u2"]).2 !! 1 = Some f ∧
    about_attr f = Some a ∧ about_empty a.
Proof.
  apply (new_body_insert_about_empty DropKey
           {["M" := VObj 0; "I" := VObj 1]}
           [frag "Person" "u1"; frag "Person" "u2"]
           {["match" := SList [VObj 0]; "insert" := SList [VObj 1]]}
           _ (VObj 0) 1); reflexivity.
Defined.

(** ** The identity is stated once *)

Lemma item0_inv oper key h x h' :
  item0 oper key h = (Ok x, h') →
  ∃ xs, oper !! key = Some (SList (x :: xs)) ∧ h' = h.
Proof.
  unfold item0, getitem. rewrite bind_unfold.
  destruct (oper !! key) as [[|[|y ys]]|]; try done.
  intros [= <- <-]. by exists ys.
Qed.

Lemma getattr_about_inv x h a h' :
  getattr_about x h = (Ok a, h') →
  ∃ l f, x = VObj l ∧ h !! l = Some f ∧ about_attr f = Some a ∧ h' = h.
Proof.
  unfold getattr_about. destruct x as [| |l]; try done.
  destruct (h !! l) as [f|] eqn:Hf; [|done].
  destruct (about_attr f) as [b|] eqn:Hb; [|done].
  intros [= <- <-]. by exists l, f.
Qed.

Lemma about_eqb_eq a b : about_eqb a b = true ↔ a = b.
Proof.
  destruct a as [|s], b as [|t]; simpl; try done.
  rewrite String.eqb_eq. split; congruence.
Qed.

(** What a call of [clear_otherwise] that returns has found and done. *)
Lemma clear_otherwise_inv oper optype h h' :
  str_in "O" optype = true → str_in "M" optype = true →
  clear_otherwise oper optype h = (Ok (), h') →
  ∃ lo lm fo fm ao am xs ys,
    oper !! "otherwiseInsert" = Some (SList (VObj lo :: xs)) ∧
    oper !! "match" = Some (SList (VObj lm :: ys)) ∧
    h !! lo = Some fo ∧ about_attr fo = Some ao ∧
    h !! lm = Some fm ∧ about_attr fm = Some am ∧
    h' = if about_eqb ao am then <[lo := set_about (AStr "") fo]> h else h.
Proof.
  intros HO HM. unfold clear_otherwise. rewrite HO, HM. cbn [andb]. intros E.
  apply bind_ok_inv in E as (o & h1 & Eo & E).
  pose proof Eo as Eo'. apply item0_inv in Eo' as (xs & Hxs & ->).
  apply bind_ok_inv in E as (ao & h1 & Ea & E).
  apply getattr_about_inv in Ea as (lo & fo & -> & Hfo & Hao & ->).
  apply bind_ok_inv in E as (m & h1 & Em & E).
  apply item0_inv in Em as (ys & Hys & ->).
  apply bind_ok_inv in E as (am & h1 & Eam & E).
  apply getattr_about_inv in Eam as (lm & fm & -> & Hfm & Ham & ->).
  exists lo, lm, fo, fm, ao, am, xs, ys. repeat (split; [done|]).
  destruct (about_eqb ao am).
  - rewrite (bind_ok _ _ _ _ _ Eo) in E. unfold setattr_about in E.
    rewrite Hfo in E. by injection E as <-.
  - by injection E as <-.
Qed.

Lemma clear_insert_inv' oper h h' :
  clear_insert oper h = (Ok (), h') →
  ∃ li f a xs,
    oper !! "insert" = Some (SList (VObj li :: xs)) ∧
    h !! li = Some f ∧ about_attr f = Some a ∧
    h' = if truthy_about a then <[li := set_about (AStr "") f]> h else h.
Proof.
  unfold clear_insert. intros E.
  apply bind_ok_inv in E as (i & h1 & Ei & E).
  pose proof Ei as Ei'. apply item0_inv in Ei' as (xs & Hxs & ->).
  apply bind_ok_inv in E as (a & h1 & Ea & E).
  apply getattr_about_inv in Ea as (li & f & -> & Hf & Ha & ->).
  exists li, f, a, xs. repeat (split; [done|]).
  destruct (truthy_about a).
  - rewrite (bind_ok _ _ _ _ _ Ei) in E. unfold setattr_about in E.
    rewrite Hf in E. by injection E as <-.
  - by injection E as <-.
Qed.

(** The two fragments at [lo] and [lm] do not state the same identity:
    the [about] of the first is the empty string or differs from the one
    of the second. *)
Lemma stated_once_set (h : list Fragment) (lo lm li : nat) f ao am fo fm :
  h !! lo = Some fo → about_attr fo = Some ao →
  h !! lm = Some fm → about_attr fm = Some am →
  ao = AStr "" ∨ ao ≠ am →
  h !! li = Some f →
  ∃ fo' fm' ao' am',
    <[li := set_about (AStr "") f]> h !! lo = Some fo' ∧
    about_attr fo' = Some ao' ∧
    <[li := set_about (AStr "") f]> h !! lm = Some fm' ∧
    about_attr fm' = Some am' ∧
    (ao' = AStr "" ∨ ao' ≠ am').
Proof.
  intros Hfo Hao Hfm Ham Hne Hf.
  assert (li < length h) as Hlt by (by eapply lookup_lt_Some).
  destruct (decide (li = lo)) as [->|Hlo].
  - destruct (decide (lo = lm)) as [->|Hlm].
    + exists (set_about (AStr "") f), (set_about (AStr "") f), (AStr ""), (AStr "").
      rewrite list_lookup_insert_eq by done.
      repeat (split; [done|]). by left.
    + exists (set_about (AStr "") f), fm, (AStr ""), am.
      rewrite list_lookup_insert_eq, list_lookup_insert_ne by done.
      repeat (split; [done|]). by left.
  - destruct (decide (li = lm)) as [->|Hlm].
    + exists fo, (set_about (AStr "") f), ao, (AStr "").
      rewrite list_lookup_insert_eq, list_lookup_insert_ne by done.
      repeat (split; [done|]).
      destruct ao as [|s]; [by right|].
      destruct (String.eqb_spec s ""); [left; congruence | right; congruence].
    + exists fo, fm, ao, am. by rewrite !list_lookup_insert_ne by done.
Qed.

(** X3.  When the argument supplies a match and an otherwiseInsert,
    every call of [new_body] that returns leaves the identity stated
    once: both slots hold fragments, and the [about] of the
    otherwiseInsert is the empty string or differs from the [about] of
    the match, also when a fragment sits in several slots. *)
Theorem new_body_identity_stated_once p args h oper h' vm vo :
  slot_arg args ("M", "match") = Some vm →
  slot_arg args ("O", "otherwiseInsert") = Some vo →
  new_body p args h = (Ok oper, h') →
  ∃ ao am,
    slot_about h' oper "otherwiseInsert" = Some ao ∧
    slot_about h' oper "match" = Some am ∧
    (ao = AStr "" ∨ ao ≠ am).
Proof.
  intros HM HO E.
  apply new_body_inv in E as (-> & _ & h1 & h2 & _ & Eo & Er).
  set (oper := (collect p args).1) in *.
  destruct (construct_of_letters args) as (EM & EI & ER & EO).
  rewrite HM in EM. rewrite HO in EO.
  rewrite bool_decide_eq_true_2 in EM, EO by eauto.
  destruct (clear_otherwise_inv _ _ _ _ EO EM Eo)
    as (lo & lm & fo & fm & ao & am & xs & ys & Hxs & Hys & Hfo & Hao
        & Hfm & Ham & ->).
  assert (∃ fo' fm' ao' am',
            (if about_eqb ao am then <[lo := set_about (AStr "") fo]> h1 else h1)
              !! lo = Some fo' ∧ about_attr fo' = Some ao' ∧
            (if about_eqb ao am then <[lo := set_about (AStr "") fo]> h1 else h1)
              !! lm = Some fm' ∧ about_attr fm' = Some am' ∧
            (ao' = AStr "" ∨ ao' ≠ am')) as H2.
  { destruct (about_eqb ao am) eqn:Eq.
    - assert (lo < length h1) as Hlt by (by eapply lookup_lt_Some).
      destruct (decide (lo = lm)) as [<-|Hlm].
      + exists (set_about (AStr "") fo), (set_about (AStr "") fo),
          (AStr ""), (AStr "").
        rewrite list_lookup_insert_eq by done.
        repeat (split; [done|]). by left.
      + exists (set_about (AStr "") fo), fm, (AStr ""), am.
        rewrite list_lookup_insert_eq, list_lookup_insert_ne by done.
        repeat (split; [done|]). by left.
    - exists fo, fm, ao, am. repeat (split; [done|]). right.
      intros Heq%about_eqb_eq. congruence. }
  set (h2 := if about_eqb ao am then _ else h1) in *. clearbody h2.
  destruct H2 as (fo2 & fm2 & ao2 & am2 & Hfo2 & Hao2 & Hfm2 & Ham2 & Hne2).
  unfold clear_relative in Er. rewrite EM in Er.
  apply bind_ok_inv in Er as ([] & h3 & Er1 & Er2).
  assert (h3 = h2) as ->.
  { destruct (str_in "R" (construct_of args)).
    - by eapply clear_replace_same.
    - by injection Er1 as <-. }
  assert (∃ fo' fm' ao' am',
            h' !! lo = Some fo' ∧ about_attr fo' = Some ao' ∧
            h' !! lm = Some fm' ∧ about_attr fm' = Some am' ∧
            (ao' = AStr "" ∨ ao' ≠ am')) as H3.
  { destruct (str_in "I" (construct_of args)).
    - apply clear_insert_inv' in Er2 as (li & f & a & zs & _ & Hf & _ & ->).
      destruct (truthy_about a).
      + by eapply stated_once_set.
      + by exists fo2, fm2, ao2, am2.
    - injection Er2 as <-. by exists fo2, fm2, ao2, am2. }
  destruct H3 as (fo3 & fm3 & ao3 & am3 & Hfo3 & Hao3 & Hfm3 & Ham3 & Hne3).
  exists ao3, am3. unfold slot_about. rewrite Hxs, Hys, Hfo3, Hfm3. simpl.
  by rewrite Hao3, Ham3.
Qed.

Lemma new_body_identity_stated_once_witness :
  ∃ ao am,
    slot_about
      (new_body DropKey {["M" := VObj 0; "O" := VObj 1]}
         [frag "Person" "u"; frag "Person" "u"]).2
      {["match" := SList [VObj 0]; "otherwiseInsert" := SList [VObj 1]]}
      "otherwiseInsert" = Some ao ∧
    slot_about
      (new_body DropKey {["M" := VObj 0; "O" := VObj 1]}
         [frag "Person" "u"; frag "Person" "u"]).2
      {["match" := SList [VObj 0]; "otherwiseInsert" := SList [VObj 1]]}
      "match" = Some am ∧
    (ao = AStr "" ∨ ao ≠ am).
Proof.
  apply (new_body_identity_stated_once DropKey
           {["M" := VObj 0; "O" := VObj 1]}
           [frag "Person" "u"; frag "Person" "u"]
           {["match" := SList [VObj 0]; "otherwiseInsert" := SList [VObj 1]]}
           _ (VObj 0) (VObj 1)); reflexivity.
Defined.

(** * The fields of a message *)

Lemma lookup_merge_guarded sender receiver (msg a : gmap string mval) key :
  (if negb (size a =? 0) then map_fold (merge_field sender receiver) msg a
   else msg) !! key
  = if copied sender receiver key then
      match a !! key with
      | Some v => Some v
      | None => msg !! key
      end
    else msg !! key.
Proof.
  destruct (size a =? 0) eqn:Hs; simpl; [|apply lookup_merge].
  apply Nat.eqb_eq, map_size_empty_iff in Hs. subst a.
  rewrite lookup_empty. by destruct (copied sender receiver key).
Qed.

Lemma own_field_lookup oper sender receiver now key :
  (<["createTime" := MStr now]>
     (if truthy_mval receiver
      then <["receiver" := receiver]>
             (<["source" := sender]>
                (if truthy_mval oper then <["body" := oper]> ∅ else ∅))
      else <["source" := sender]>
             (if truthy_mval oper then <["body" := oper]> ∅ else ∅))
   : gmap string mval) !! key
  = own_field oper sender receiver now key.
Proof.
  unfold own_field.
  destruct (String.eqb_spec key "body") as [->|Hb].
  { rewrite lookup_insert_ne by done.
    destruct (truthy_mval receiver), (truthy_mval oper);
      rewrite ?(lookup_insert_ne _ "receiver"), ?(lookup_insert_ne _ "source")
        by done; by rewrite ?lookup_insert_eq. }
  destruct (String.eqb_spec key "source") as [->|Hs].
  { rewrite lookup_insert_ne by done.
    destruct (truthy_mval receiver);
      rewrite ?(lookup_insert_ne _ "receiver") by done;
      by rewrite lookup_insert_eq. }
  destruct (String.eqb_spec key "receiver") as [->|Hr].
  { rewrite lookup_insert_ne by done.
    destruct (truthy_mval receiver).
    - by rewrite lookup_insert_eq.
    - rewrite lookup_insert_ne by done.
      destruct (truthy_mval oper);
        by rewrite ?lookup_insert_ne, ?lookup_empty by done. }
  destruct (String.eqb_spec key "createTime") as [->|Hc].
  { by rewrite lookup_insert_eq. }
  rewrite lookup_insert_ne by done.
  destruct (truthy_mval receiver), (truthy_mval oper);
    by rewrite ?lookup_insert_ne, ?lookup_empty by done.
Qed.

Lemma copied_mid sender receiver : copied sender receiver "mid" = true.
Proof.
  unfold copied. by destruct (truthy_mval sender), (truthy_mval receiver).
Qed.

(** X4.  [new_message] always returns; it leaves [args] without its
    entry "mid", and every field of the message is the one read off the
    arguments by [message_field]: the message id comes from [args] or
    else is the generated one, the entries of [args] under "body", under
    "sender" next to a non-empty sender and under "receiver" next to a
    non-empty receiver are dropped, and every other entry of [args],
    "createTime" and "source" included, ends up in the message. *)
Theorem new_message_fields oper sender receiver args now uuid :
  ∃ msg,
    new_message oper sender receiver args now uuid = Ok (msg, args_left args) ∧
    ∀ key, msg !! key = message_field oper sender receiver args now uuid key.
Proof.
  unfold new_message, msg_setitem.
  set (msg0 := <["createTime" := MStr now]> _).
  assert (∀ key, msg0 !! key = own_field oper sender receiver now key) as H0.
  { intros key. apply own_field_lookup. }
  clearbody msg0. unfold message_field, args_left, args_entry.
  destruct args as [a|].
  - destruct (a !! "mid") as [mid|] eqn:Emid.
    + eexists. split; [reflexivity|]. intros key.
      rewrite lookup_merge_guarded.
      destruct (String.eqb_spec key "mid") as [->|Hne].
      * rewrite lookup_delete_eq, lookup_insert_eq.
        by destruct (copied sender receiver "mid").
      * rewrite lookup_delete_ne, lookup_insert_ne, H0 by done.
        destruct (copied sender receiver key); by destruct (a !! key).
    + rewrite (delete_id a "mid") by done.
      eexists. split; [reflexivity|]. intros key.
      rewrite lookup_merge_guarded.
      destruct (String.eqb_spec key "mid") as [->|Hne].
      * rewrite Emid, lookup_insert_eq.
        by destruct (copied sender receiver "mid").
      * rewrite lookup_insert_ne, H0 by done.
        destruct (copied sender receiver key); by destruct (a !! key).
  - eexists. split; [reflexivity|]. intros key.
    destruct (String.eqb_spec key "mid") as [->|Hne].
    + by rewrite lookup_insert_eq.
    + by rewrite lookup_insert_ne, H0.
Qed.

(** * Add and delete *)

(** X5.  On an operation that has no key besides the four slots,
    [is_add_operation] holds exactly when the construct is "O" and
    [is_delete_operation] exactly when it is "M"; so at most one of the
    two holds. *)
Theorem is_add_is_delete_construct oper :
  keys_in_parts oper →
  (is_add_operation oper = true ↔ operation oper = "O") ∧
  (is_delete_operation oper = true ↔ operation oper = "M").
Proof.
  intros Hkeys. rewrite (oper_shape oper Hkeys).
  destruct (oper !! "match"), (oper !! "insert"), (oper !! "replace"),
    (oper !! "otherwiseInsert");
    split; split; vm_compute; intros H;
    first [exact H | discriminate H | reflexivity].
Qed.

Lemma is_add_is_delete_construct_witness :
  (is_add_operation (MR_oper 0 1) = true ↔ operation (MR_oper 0 1) = "O") ∧
  (is_delete_operation (MR_oper 0 1) = true ↔ operation (MR_oper 0 1) = "M").
Proof.
  apply is_add_is_delete_construct.
  unfold MR_oper. rewrite <- insert_empty.
  repeat (apply keys_in_parts_insert; [apply PARTS_elem|]).
  apply keys_in_parts_empty.
Defined.

(** X6.  A delete by a bare URIRef string: [new_delete_body] accepts it
    and leaves the store alone, the result is a delete operation, but
    [remove_object_type] measures the length of the string, so it is
    [False] for every non-empty URIRef, and [about] raises
    [AttributeError]. *)
Theorem delete_by_uriref p s h :
  new_delete_body p (VStr s) h = (Ok {["match" := SList [VStr s]]}, h) ∧
  is_delete_operation {["match" := SList [VStr s]]} = true ∧
  remove_object_type {["match" := SList [VStr s]]} h
  = (Ok (String.length s =? 0), h) ∧
  about {["match" := SList [VStr s]]} h = (Err AttributeError, h).
Proof.
  split; [reflexivity|]. split; [reflexivity|]. split; [|reflexivity].
  unfold remove_object_type.
  change (String.eqb (operation {["match" := SList [VStr s]]}) "M") with true.
  cbv iota.
  rewrite (bind_ok _ _ _ (VStr s) h) by reflexivity.
  rewrite (bind_ok _ _ _ (String.length s) h) by reflexivity.
  by destruct (String.length s =? 0).
Qed.

Lemma verify_about_part_obj oper part l h f :
  oper !! part = Some (SList [VObj l]) → h !! l = Some f →
  verify_about_part oper part h
  = (Ok (), match about_attr f with
            | Some _ => h
            | None => <[l := set_about (AStr "") f]> h
            end).
Proof.
  intros E Hf. unfold verify_about_part. rewrite E.
  rewrite (bind_ok _ _ _ _ _ (item0_frag _ _ _ _ _ E)).
  unfold try_except. rewrite bind_unfold. unfold getattr_about at 1.
  rewrite Hf. destruct (about_attr f) as [a|] eqn:Ha; [done|].
  cbn [exn_eqb]. rewrite (bind_ok _ _ _ _ _ (item0_frag _ _ _ _ _ E)).
  unfold setattr_about. by rewrite Hf.
Qed.

Lemma verify_about_part_absent oper part h :
  oper !! part = None → verify_about_part oper part h = (Ok (), h).
Proof. intros E. unfold verify_about_part. by rewrite E. Qed.

(** X7.  A delete of a fragment: [new_delete_body] returns the operation
    that holds it as match and changes nothing but an [about] that was
    not set, which becomes the empty string; [remove_object_type] is
    [True] exactly when the fragment has no property. *)
Theorem delete_of_fragment p h l f :
  h !! l = Some f →
  ∃ h',
    new_delete_body p (VObj l) h = (Ok {["match" := SList [VObj l]]}, h') ∧
    h' = match about_attr f with
         | Some _ => h
         | None => <[l := set_about (AStr "") f]> h
         end ∧
    is_delete_operation {["match" := SList [VObj l]]} = true ∧
    remove_object_type {["match" := SList [VObj l]]} h'
    = (Ok (size (properties f) =? 0), h').
Proof.
  intros Hf. eexists. split; [|split; [reflexivity|split; [reflexivity|]]].
  - unfold new_delete_body, new_body.
    change (collect p {["M" := VObj l]})
      with ({["match" := SList [VObj l]]} : gmap string stored, "M").
    cbv beta iota zeta. change (negb (allowed "M")) with false. cbv iota.
    cbn [verify_about].
    pose proof (verify_about_part_obj
                  ({["match" := SList [VObj l]]} : gmap string stored)
                  "match" l h f eq_refl Hf) as Ev.
    rewrite bind_unfold, (bind_ok _ _ _ _ _ Ev). reflexivity.
  - unfold remove_object_type.
    change (String.eqb (operation {["match" := SList [VObj l]]}) "M") with true.
    cbv iota.
    set (h' := match about_attr f with Some _ => h | None => _ end).
    assert (∃ f', h' !! l = Some f' ∧ properties f' = properties f)
      as (f' & Hf' & <-).
    { unfold h'. destruct (about_attr f); [by exists f|].
      exists (set_about (AStr "") f). split; [|done].
      apply list_lookup_insert_eq. by eapply lookup_lt_Some. }
    rewrite (bind_ok _ _ _ (VObj l) h') by reflexivity.
    rewrite (bind_ok _ _ _ _ _ (py_len_ok _ _ _ Hf')).
    by destruct (size (properties f') =? 0).
Qed.

Lemma delete_of_fragment_witness :
  ∃ h',
    new_delete_body DropKey (VObj 0) [frag "Person" "u1"]
    = (Ok {["match" := SList [VObj 0]]}, h') ∧
    remove_object_type {["match" := SList [VObj 0]]} h' = (Ok true, h').
Proof.
  destruct (delete_of_fragment DropKey [frag "Person" "u1"] 0
              (frag "Person" "u1") eq_refl) as (h' & E & _ & _ & Hr).
  exists h'. split; [exact E | exact Hr].
Defined.

(** * Match and insert *)

Lemma MI_oper_slots_ok h lm li :
  has_about h lm → has_about h li → Forall (slot_ok h (MI_oper lm li)) PARTS.
Proof.
  intros Hm Hi. unfold PARTS.
  constructor; [|constructor; [|constructor; [|constructor; [|constructor]]]].
  - unfold slot_ok.
    change (MI_oper lm li !! "match") with (Some (SList [VObj lm])).
    by exists lm.
  - unfold slot_ok.
    change (MI_oper lm li !! "insert") with (Some (SList [VObj li])).
    by exists li.
  - unfold slot_ok. by change (MI_oper lm li !! "replace") with (@None stored).
  - unfold slot_ok.
    by change (MI_oper lm li !! "otherwiseInsert") with (@None stored).
Qed.

(** With a match and an insert that both have an [about], [new_body]
    does one thing to the store: it empties a non-empty [about] of the
    insert. *)
Lemma new_body_MI_eq p h lm li fi ai :
  has_about h lm → h !! li = Some fi → about_attr fi = Some ai →
  new_body p {["I" := VObj li; "M" := VObj lm]} h
  = (Ok (MI_oper lm li),
     if truthy_about ai then <[li := set_about (AStr "") fi]> h else h).
Proof.
  intros Hm Hfi Hai. unfold new_body.
  change (collect p {["I" := VObj li; "M" := VObj lm]})
    with (MI_oper lm li, "MI").
  cbv beta iota zeta. change (negb (allowed "MI")) with false. cbv iota.
  assert (has_about h li) as Hi by (by exists fi, ai).
  pose proof (MI_oper_slots_ok h lm li Hm Hi) as Hok.
  pose proof (verify_about_noop _ _ _ Hok) as Hv. unfold PARTS in Hv.
  rewrite (bind_ok _ _ _ _ _ Hv).
  rewrite (bind_ok _ _ _ _ _ (fix_match_id p _ _ (proj1 (slots_ok_parts _ _ Hok)))).
  change (clear_otherwise (MI_oper lm li) "MI") with (mret () : M ()).
  rewrite bind_unfold. change ((mret () : M ()) h) with (Ok (), h). cbv iota.
  change (clear_relative (MI_oper lm li) "MI")
    with ((mret () : M ()) ≫= λ _, clear_insert (MI_oper lm li)).
  rewrite bind_unfold, bind_unfold.
  change ((mret () : M ()) h) with (Ok (), h). cbv iota.
  unfold clear_insert.
  rewrite (bind_ok _ _ _ (VObj li) h) by reflexivity.
  rewrite (bind_ok _ _ _ _ _ (getattr_about_ok _ _ _ _ Hfi Hai)).
  destruct (truthy_about ai); [|reflexivity].
  rewrite (bind_ok _ _ _ (VObj li) h) by reflexivity.
  unfold setattr_about. rewrite Hfi. reflexivity.
Qed.

(** X8.  [new_insert_body] without a match, on an insert that has an
    [about]: a new fragment of the class of the insert, without
    properties and with the [about] of the insert, is added to the store
    and becomes the match; the [about] of the insert becomes [None];
    nothing else changes. *)
Theorem new_insert_body_derives_match p h li f a :
  h !! li = Some f → about_attr f = Some a →
  new_insert_body p (VObj li) VNone h
  = (Ok (MI_oper (length h) li),
     <[li := set_about ANone f]> h ++ [mkFragment (object_type f) (Some a) ∅]).
Proof.
  intros Hf Ha. unfold new_insert_body.
  rewrite (bind_ok _ _ _ false h) by reflexivity. cbn [negb].
  assert (li < length h) as Hlt by (by eapply lookup_lt_Some).
  set (new0 := mkFragment (object_type f) None ∅).
  assert (new_instance (VObj li) h = (Ok (VObj (length h)), h ++ [new0])) as E1.
  { unfold new_instance. by rewrite Hf. }
  assert ((h ++ [new0]) !! li = Some f) as Hf1.
  { by rewrite lookup_app_l. }
  assert (setattr_about (VObj (length h)) a (h ++ [new0])
          = (Ok (), h ++ [set_about a new0])) as E3.
  { unfold setattr_about. rewrite list_lookup_middle by done.
    rewrite insert_app_r_alt by done. by rewrite Nat.sub_diag. }
  assert ((h ++ [set_about a new0]) !! li = Some f) as Hf2.
  { by rewrite lookup_app_l. }
  assert (setattr_about (VObj li) ANone (h ++ [set_about a new0])
          = (Ok (), <[li := set_about ANone f]> h ++ [set_about a new0])) as E4.
  { unfold setattr_about. rewrite Hf2. by rewrite insert_app_l. }
  rewrite bind_unfold.
  rewrite (bind_ok _ _ _ _ _ E1).
  rewrite (bind_ok _ _ _ _ _ (getattr_about_ok _ _ _ _ Hf1 Ha)).
  rewrite (bind_ok _ _ _ _ _ E3).
  rewrite (bind_ok _ _ _ _ _ E4).
  set (h3 := <[li := set_about ANone f]> h ++ [set_about a new0]).
  assert (has_about h3 (length h)) as Hm3.
  { exists (set_about a new0), a. split; [|done]. unfold h3.
    rewrite lookup_app_r by (by rewrite length_insert).
    by rewrite length_insert, Nat.sub_diag. }
  assert (h3 !! li = Some (set_about ANone f)) as Hi3.
  { unfold h3. rewrite lookup_app_l by (by rewrite length_insert).
    by apply list_lookup_insert_eq. }
  change (ret (VObj (length h)) h3) with (Ok (VObj (length h)), h3). cbv iota.
  by rewrite (new_body_MI_eq p h3 (length h) li _ ANone Hm3 Hi3 eq_refl).
Qed.

Lemma new_insert_body_derives_match_witness :
  new_insert_body DropKey (VObj 0) VNone [frag "Person" "u1"]
  = (Ok (MI_oper 1 0),
     [mkFragment "Person" (Some ANone) ∅; frag "Person" "u1"]).
Proof.
  apply (new_insert_body_derives_match DropKey [frag "Person" "u1"] 0
           (frag "Person" "u1") (AStr "u1")); reflexivity.
Defined.

(** * om2api: dict_join *)

Section DictJoinFacts.
Context {V : Type} `{EqDecision V}.
Implicit Types (cur values : list V).

Lemma append_new_snoc cur values v :
  append_new cur (values ++ [v])
  = if bool_decide (v ∈ append_new cur values) then append_new cur values
    else append_new cur values ++ [v].
Proof. unfold append_new. by rewrite foldl_app. Qed.

Lemma append_new_prefix cur values : cur `prefix_of` append_new cur values.
Proof.
  induction values as [|v values IH] using rev_ind; [done|].
  rewrite append_new_snoc. case_bool_decide; [done|].
  by apply prefix_app_r.
Qed.

Lemma elem_of_append_new cur values v :
  v ∈ append_new cur values ↔ v ∈ cur ∨ v ∈ values.
Proof.
  revert v. induction values as [|w values IH] using rev_ind; intros v.
  - simpl. rewrite elem_of_nil. tauto.
  - rewrite append_new_snoc. case_bool_decide as Hw.
    + rewrite IH, elem_of_app, list_elem_of_singleton.
      apply IH in Hw. split; [tauto|].
      intros [Hc|[Hv|Heq]]; [tauto|tauto|by subst].
    + rewrite !elem_of_app, IH, list_elem_of_singleton. tauto.
Qed.

Lemma NoDup_append_new cur values : NoDup cur → NoDup (append_new cur values).
Proof.
  intros Hnd. induction values as [|w values IH] using rev_ind; [done|].
  rewrite append_new_snoc. case_bool_decide as Hw; [done|].
  apply (proj2 (list.NoDup_app _ _)).
  split; [done|]. split; [|apply NoDup_singleton].
  intros x Hx Hin%list_elem_of_singleton. by subst.
Qed.

Lemma append_new_known cur values :
  (∀ v, v ∈ values → v ∈ cur) → append_new cur values = cur.
Proof.
  induction values as [|w values IH] using rev_ind; [done|]. intros Hall.
  rewrite append_new_snoc, IH.
  - rewrite bool_decide_eq_true_2; [done|]. apply Hall, elem_of_app.
    right. by apply list_elem_of_singleton.
  - intros v Hv. apply Hall, elem_of_app. by left.
Qed.

(** X9.  Key by key, [dict_join] returns: for a key of both
    dictionaries, the list of [dic0] followed by the values of [dic1]
    that are new; for a key of one of them only, its list as it is. *)
Theorem dict_join_lookup (dic0 dic1 : gmap string (list V)) key :
  dict_join dic0 dic1 !! key
  = match dic0 !! key, dic1 !! key with
    | Some cur, Some values => Some (append_new cur values)
    | Some cur, None => Some cur
    | None, other => other
    end.
Proof.
  unfold dict_join. revert key.
  apply (map_fold_weak_ind (λ r m, ∀ key,
    r !! key = match dic0 !! key, m !! key with
               | Some cur, Some values => Some (append_new cur values)
               | Some cur, None => Some cur
               | None, other => other
               end)).
  - intros key. rewrite lookup_empty. by destruct (dic0 !! key).
  - intros i x m r Hi IH key. unfold dict_join_key.
    pose proof (IH i) as Hri. rewrite Hi in Hri.
    destruct (decide (i = key)) as [->|Hne].
    + rewrite lookup_insert_eq. destruct (dic0 !! key) as [cur|].
      * rewrite Hri. by rewrite lookup_insert_eq.
      * rewrite Hri. by rewrite lookup_insert_eq.
    + rewrite (lookup_insert_ne m) by done. rewrite <- IH.
      destruct (r !! i); by rewrite lookup_insert_ne.
Qed.

(** X10.  For a key of both dictionaries the joined list begins with the
    list of [dic0], holds exactly the values of the two lists, and has no
    duplicates when the list of [dic0] has none. *)
Theorem dict_join_values (dic0 dic1 : gmap string (list V)) key cur values :
  dic0 !! key = Some cur → dic1 !! key = Some values →
  ∃ joined,
    dict_join dic0 dic1 !! key = Some joined ∧
    cur `prefix_of` joined ∧
    (∀ v, v ∈ joined ↔ v ∈ cur ∨ v ∈ values) ∧
    (NoDup cur → NoDup joined).
Proof.
  intros E0 E1. exists (append_new cur values).
  rewrite dict_join_lookup, E0, E1. split; [done|].
  split; [apply append_new_prefix|]. split.
  - intros v. apply elem_of_append_new.
  - apply NoDup_append_new.
Qed.

(** X11.  Joining the same dictionary a second time changes nothing, and
    the empty dictionary is neutral on both sides. *)
Theorem dict_join_idempotent (dic0 dic1 : gmap string (list V)) :
  dict_join (dict_join dic0 dic1) dic1 = dict_join dic0 dic1 ∧
  dict_join dic0 ∅ = dic0 ∧
  dict_join ∅ dic1 = dic1.
Proof.
  split; [|split]; apply map_eq; intros key; rewrite !dict_join_lookup.
  - destruct (dic0 !! key) as [cur|], (dic1 !! key) as [values|]; try done.
    + f_equal. apply append_new_known. intros v Hv.
      apply elem_of_append_new. by right.
    + f_equal. by apply append_new_known.
  - rewrite lookup_empty. by destruct (dic0 !! key).
  - by rewrite lookup_empty.
Qed.

End DictJoinFacts.

Lemma dict_join_values_witness :
  ∃ joined,
    dict_join ({["mail" := ["a"; "b"]]} : gmap string (list string))
      {["mail" := ["b"; "c"; "c"]]} !! "mail" = Some joined ∧
    ["a"; "b"] `prefix_of` joined ∧
    (∀ v, v ∈ joined ↔ v ∈ ["a"; "b"] ∨ v ∈ ["b"; "c"; "c"]) ∧
    (NoDup ["a"; "b"] → NoDup joined).
Proof.
  apply (dict_join_values
           ({["mail" := ["a"; "b"]]} : gmap string (list string))
           {["mail" := ["b"; "c"; "c"]]} "mail"); reflexivity.
Defined.

(** * om2api: unfurl *)

Lemma map_to_list_one (d : gmap string uval) key value :
  map_to_list d = [(key, value)] → d = {[key := value]}.
Proof.
  intros E. rewrite <- (list_to_map_to_list d), E. simpl.
  by rewrite insert_empty.
Qed.

(** X12.  [unfurl] inverts the encoding of an object instance as a
    dictionary with one key: from [{type: (uriref, ava)}] it returns the
    three parts, with [{}] in place of an [ava] that is [None]; so the
    properties it returns are never [None]. *)
Theorem unfurl_pair object_type uriref ava :
  unfurl (UDict {[object_type := USeq [uriref; ava]]})
  = inr (object_type, uriref, if is_none ava then UDict ∅ else ava) ∧
  ∀ obj ty u a, unfurl obj = inr (ty, u, a) → a ≠ UNone.
Proof.
  split.
  - unfold unfurl. by rewrite map_to_list_singleton.
  - intros obj ty u a. unfold unfurl.
    destruct obj as [| | |d|]; try done.
    destruct (map_to_list d) as [|[k v] [|]]; try done.
    destruct v as [| |xs| |]; try done.
    + by intros [= <- <- <-].
    + destruct xs as [|x [|y [|z zs]]]; try done.
      * by intros [= <- <- <-].
      * intros [= <- <- <-]. by destruct y.
      * by intros [= <- <- <-].
Qed.

(** X13.  [unfurl] returns exactly on a dictionary with one key whose
    value is a string or a sequence that is not empty.  A sequence of one
    element, or of three or more, gives its first element and no
    properties: the other elements are dropped.  An empty sequence makes
    the [IndexError] of its handler escape. *)
Theorem unfurl_returns obj :
  ((∃ r, unfurl obj = inr r) ↔
   ∃ object_type value,
     obj = UDict {[object_type := value]} ∧
     ((∃ s, value = UStr s) ∨ (∃ x xs, value = USeq (x :: xs)))) ∧
  (∀ object_type x xs,
     length xs ≠ 1 →
     unfurl (UDict {[object_type := USeq (x :: xs)]})
     = inr (object_type, x, UDict ∅)) ∧
  (∀ object_type,
     unfurl (UDict {[object_type := USeq []]}) = inl EmptySequence).
Proof.
  split; [|split].
  - split.
    + intros [r Hr]. unfold unfurl in Hr.
      destruct obj as [| | |d|]; try done.
      destruct (map_to_list d) as [|[k v] [|]] eqn:E; try done.
      apply map_to_list_one in E as ->. exists k, v. split; [done|].
      destruct v as [|s|xs| |]; try done.
      * left. by exists s.
      * destruct xs as [|x xs]; [done|]. right. by exists x, xs.
    + intros (ty & v & -> & [[s ->]|(x & xs & ->)]); unfold unfurl;
        rewrite map_to_list_singleton; [by eexists|].
      destruct xs as [|y [|z zs]]; by eexists.
  - intros ty x xs Hlen. unfold unfurl. rewrite map_to_list_singleton.
    by destruct xs as [|y [|z zs]].
  - intros ty. unfold unfurl. by rewrite map_to_list_singleton.
Qed.

(** * om2api: OM2.replace *)

Lemma api_bind_unfold {A B} (m : OM2.API A) (k : A → OM2.API B) h :
  (m ≫= k) h = match m h with
               | (OM2.Returns a, h') => k a h'
               | (OM2.Raises err, h') => (OM2.Raises err, h')
               end.
Proof. reflexivity. Qed.

Lemma api_bind_returns {A B} (m : OM2.API A) (k : A → OM2.API B) h a h' :
  m h = (OM2.Returns a, h') → (m ≫= k) h = k a h'.
Proof. intros E. by rewrite api_bind_unfold, E. Qed.

Lemma lift_getattr_about h l f a :
  h !! l = Some f → about_attr f = Some a →
  OM2.lift (getattr_about (VObj l)) h = (OM2.Returns a, h).
Proof.
  intros Hf Ha. unfold OM2.lift. by rewrite (getattr_about_ok _ _ _ _ Hf Ha).
Qed.

Lemma require_match_value h l f a :
  h !! l = Some f → about_attr f = Some a →
  OM2.require_match (VObj l) h
  = if truthy_about a then (OM2.Returns (), h)
    else (OM2.Raises
            (OM2.Exception "Match clause without uriref not allowed"), h).
Proof.
  intros Hf Ha. unfold OM2.require_match.
  rewrite (api_bind_returns _ _ _ _ _ (lift_getattr_about _ _ _ _ Hf Ha)).
  by destruct (truthy_about a).
Qed.

(** The check of a fragment against the match, up to the continuation. *)
Lemma same_uriref_value h lx lm fx fm ax am k :
  h !! lx = Some fx → about_attr fx = Some ax →
  h !! lm = Some fm → about_attr fm = Some am →
  OM2.same_uriref (VObj lx) (VObj lm) k h
  = if truthy_about ax then
      if about_eqb ax am then k (<[lx := set_about ANone fx]> h)
      else (OM2.Raises (OM2.Exception "Mismatched urirefs not allowed"), h)
    else (OM2.Returns (), h).
Proof.
  intros Hfx Hax Hfm Ham. unfold OM2.same_uriref.
  rewrite (api_bind_returns _ _ _ _ _ (lift_getattr_about _ _ _ _ Hfx Hax)).
  destruct (truthy_about ax); [|done].
  rewrite (api_bind_returns _ _ _ _ _ (lift_getattr_about _ _ _ _ Hfx Hax)).
  rewrite (api_bind_returns _ _ _ _ _ (lift_getattr_about _ _ _ _ Hfm Ham)).
  destruct (about_eqb ax am); [|done]. cbn [negb].
  rewrite api_bind_unfold. unfold OM2.lift, setattr_about. by rewrite Hfx.
Qed.

Lemma has_about_after_set (h : list Fragment) l l' f a :
  h !! l' = Some f → has_about h l → has_about (<[l' := set_about a f]> h) l.
Proof. apply has_about_set. Qed.

Lemma deliver_store graph s msg h :
  ∃ r, OM2.deliver graph s msg h = (OM2.Returns r, h).
Proof.
  unfold OM2.deliver, OM2.apply. destruct (OM2.nexthop s) as [write|].
  - destruct (write (graph msg h)); by eexists.
  - by eexists.
Qed.

(** X14.  [OM2.replace] on two fragments that have an [about]: it
    raises "Match clause without uriref not allowed" when the [about] of
    the match is empty, and "Mismatched urirefs not allowed" when the
    replace has a non-empty [about] that differs from it, both without
    touching the store; otherwise the [about] of the replace becomes
    [None] if it was not empty, nothing else changes, and what is
    delivered is the message of [new_message] around the match and
    replace operation. *)
Theorem OM2_replace_outcome graph p s lm lr fm fr am ar args now uuid h :
  h !! lm = Some fm → about_attr fm = Some am →
  h !! lr = Some fr → about_attr fr = Some ar →
  (truthy_about am = false →
     OM2.replace graph p s (VObj lm) (VObj lr) args now uuid h
     = (OM2.Raises
          (OM2.Exception "Match clause without uriref not allowed"), h)) ∧
  (truthy_about am = true → truthy_about ar = true → ar ≠ am →
     OM2.replace graph p s (VObj lm) (VObj lr) args now uuid h
     = (OM2.Raises (OM2.Exception "Mismatched urirefs not allowed"), h)) ∧
  (truthy_about am = true → truthy_about ar = false ∨ ar = am →
     ∃ msg,
       new_message (MOper (MR_oper lm lr)) (OM2.sender s) (OM2.receiver s)
         args now uuid = Ok (msg, args_left args) ∧
       OM2.replace graph p s (VObj lm) (VObj lr) args now uuid h
       = OM2.deliver graph s msg
           (if truthy_about ar then <[lr := set_about ANone fr]> h else h)).
Proof.
  intros Hfm Ham Hfr Har. unfold OM2.replace.
  rewrite api_bind_unfold, (require_match_value _ _ _ _ Hfm Ham).
  split; [|split].
  - by intros ->.
  - intros -> Ht Hne. rewrite api_bind_unfold.
    rewrite (same_uriref_value _ _ _ _ _ _ _ _ Hfr Har Hfm Ham), Ht.
    destruct (about_eqb ar am) eqn:Eq; [|done].
    by apply about_eqb_eq in Eq.
  - intros -> Hor. rewrite api_bind_unfold.
    rewrite (same_uriref_value _ _ _ _ _ _ _ _ Hfr Har Hfm Ham).
    destruct (new_message_fields (MOper (MR_oper lm lr)) (OM2.sender s)
                (OM2.receiver s) args now uuid) as (msg & Emsg & _).
    exists msg. split; [done|].
    set (h' := if truthy_about ar then <[lr := set_about ANone fr]> h else h).
    assert ((if truthy_about ar
             then if about_eqb ar am
                  then (mret () : OM2.API ()) (<[lr := set_about ANone fr]> h)
                  else (OM2.Raises
                          (OM2.Exception "Mismatched urirefs not allowed"), h)
             else (OM2.Returns (), h)) = (OM2.Returns (), h')) as ->.
    { unfold h'. destruct (truthy_about ar) eqn:Ht; [|done].
      destruct Hor as [? | ->]; [done|].
      by rewrite (proj2 (about_eqb_eq am am) eq_refl). }
    assert (has_about h' lm ∧ has_about h' lr) as [Hm' Hr'].
    { unfold h'. destruct (truthy_about ar).
      - split; apply has_about_set; try done;
          [by exists fm, am | by exists fr, ar].
      - split; [by exists fm, am | by exists fr, ar]. }
    cbv iota.
    change (new_body p {["M" := VObj lm; "R" := VObj lr]})
      with (new_replace_body p (VObj lm) (VObj lr)).
    rewrite api_bind_unfold. unfold OM2.lift at 1.
    rewrite (new_replace_body_eq p h' lm lr Hm' Hr').
    rewrite api_bind_unfold. unfold OM2.lift_result. by rewrite Emsg.
Qed.

Lemma OM2_replace_outcome_witness :
  ∃ msg,
    new_message (MOper (MR_oper 0 1)) (MStr "me") (MList [])
      (Some ∅) "now" "uuid" = Ok (msg, args_left (Some ∅)) ∧
    OM2.replace (λ _ _, "") DropKey (OM2.mkSelf (MStr "me") (MList []) None)
      (VObj 0) (VObj 1) (Some ∅) "now" "uuid"
      [frag "Person" "u"; frag "Person" "u"]
    = (OM2.Returns (OM2.Message msg),
       [frag "Person" "u"; mkFragment "Person" (Some ANone) ∅]).
Proof.
  destruct (OM2_replace_outcome (λ _ _, "") DropKey
              (OM2.mkSelf (MStr "me") (MList []) None) 0 1
              (frag "Person" "u") (frag "Person" "u") (AStr "u") (AStr "u")
              (Some ∅) "now" "uuid" [frag "Person" "u"; frag "Person" "u"]
              eq_refl eq_refl eq_refl eq_refl) as (_ & _ & H3).
  destruct (H3 eq_refl (or_intror eq_refl)) as (msg & Emsg & E).
  exists msg. split; [exact Emsg | exact E].
Defined.

(** X15.  An operation sent by [OM2.replace] is never a rename or a
    move: whenever the method returns, [is_rename_operation] and
    [is_move_operation] are [False] on the operation that it has built,
    in the store that it leaves. *)
Theorem OM2_replace_never_rename
    graph p s lm lr fm fr am ar args now uuid h r h' :
  h !! lm = Some fm → about_attr fm = Some am →
  h !! lr = Some fr → about_attr fr = Some ar →
  OM2.replace graph p s (VObj lm) (VObj lr) args now uuid h
  = (OM2.Returns r, h') →
  is_rename_operation (MR_oper lm lr) h' = (Ok false, h') ∧
  is_move_operation (MR_oper lm lr) h' = (Ok false, h').
Proof.
  intros Hfm Ham Hfr Har E.
  destruct (OM2_replace_outcome graph p s lm lr fm fr am ar args now uuid h
              Hfm Ham Hfr Har) as (H1 & H2 & H3).
  destruct (truthy_about am) eqn:Hta; [|by rewrite H1 in E].
  assert (truthy_about ar = false ∨ ar = am) as Hor.
  { destruct (truthy_about ar) eqn:Htr; [|by left]. right.
    destruct (about_eqb ar am) eqn:Eq; [by apply about_eqb_eq|].
    rewrite H2 in E; [done..|]. intros ->.
    by rewrite (proj2 (about_eqb_eq am am) eq_refl) in Eq. }
  destruct (H3 eq_refl Hor) as (msg & _ & E').
  rewrite E' in E.
  destruct (deliver_store graph s msg
              (if truthy_about ar then <[lr := set_about ANone fr]> h else h))
    as (r' & Ed).
  rewrite Ed in E. injection E as _ <-.
  assert (lr < length h) as Hlt by (by eapply lookup_lt_Some).
  assert (∃ fm' fr' am' ar',
            (if truthy_about ar then <[lr := set_about ANone fr]> h else h)
              !! lm = Some fm' ∧ about_attr fm' = Some am' ∧
            (if truthy_about ar then <[lr := set_about ANone fr]> h else h)
              !! lr = Some fr' ∧ about_attr fr' = Some ar' ∧
            truthy_about ar' = false)
    as (fm' & fr' & am' & ar' & Hfm' & Ham' & Hfr' & Har' & Hf).
  { destruct (truthy_about ar) eqn:Htr.
    - destruct (decide (lr = lm)) as [->|Hne].
      + exists (set_about ANone fr), (set_about ANone fr), ANone, ANone.
        by rewrite list_lookup_insert_eq.
      + exists fm, (set_about ANone fr), am, ANone.
        by rewrite list_lookup_insert_eq, list_lookup_insert_ne.
    - by exists fm, fr, am, ar. }
  rewrite (is_rename_operation_MR _ _ _ _ _ _ _ Hfm' Ham' Hfr' Har').
  rewrite (is_move_operation_MR _ _ _ _ _ _ _ Hfm' Ham' Hfr' Har').
  rewrite Hf.
  split; f_equal; f_equal;
    by destruct (truthy_about am'), (size (properties fm') =? 0),
      (size (properties fr') =? 0).
Qed.

Lemma OM2_replace_never_rename_witness :
  is_rename_operation (MR_oper 0 1)
    [frag "Person" "u"; mkFragment "Person" (Some ANone) ∅]
  = (Ok false, [frag "Person" "u"; mkFragment "Person" (Some ANone) ∅]) ∧
  is_move_operation (MR_oper 0 1)
    [frag "Person" "u"; mkFragment "Person" (Some ANone) ∅]
  = (Ok false, [frag "Person" "u"; mkFragment "Person" (Some ANone) ∅]).
Proof.
  apply (OM2_replace_never_rename (λ _ _, "") DropKey
           (OM2.mkSelf (MStr "me") (MList []) None) 0 1
           (frag "Person" "u") (frag "Person" "u") (AStr "u") (AStr "u")
           (Some ∅) "now" "uuid" [frag "Person" "u"; frag "Person" "u"]
           (OM2.Message
              (<["mid" := MStr "uuid"]>
                 (<["createTime" := MStr "now"]>
                    (<["source" := MStr "me"]>
                       (<["body" := MOper (MR_oper 0 1)]> ∅))))));
    reflexivity.
Defined.

(** * om2api: OM2.insert_replace *)





(** * An operation and its message *)

Lemma wf_operation_not_empty oper :
  keys_in_parts oper → allowed (operation oper) = true →
  truthy_mval (MOper oper) = true.
Proof.
  intros Hkeys. rewrite (oper_shape oper Hkeys).
  destruct (oper !! "match"), (oper !! "insert"), (oper !! "replace"),
    (oper !! "otherwiseInsert"); vm_compute; congruence.
Qed.

(** X17.  An operation that [new_body] has built from fragments is never
    empty, so [new_message] always stores it under "body", whatever the
    sender, the receiver and [args] are. *)
Theorem built_operation_is_body
    p h args oper h' sender receiver fields now uuid :
  populated h args →
  new_body p args h = (Ok oper, h') →
  ∃ msg,
    new_message (MOper oper) sender receiver fields now uuid
    = Ok (msg, args_left fields) ∧
    msg !! "body" = Some (MOper oper).
Proof.
  intros Hpop E.
  pose proof (new_body_wf p h args oper h' Hpop E) as [Hkeys _].
  assert (allowed (operation oper) = true) as Hal.
  { destruct (allowed (construct_of args)) eqn:Hc.
    - pose proof (new_body_accepts p args h Hpop Hc) as Hs.
      unfold succeeds in Hs. rewrite E in Hs. destruct Hs as [-> _]. done.
    - rewrite (new_body_rejects p args h Hc) in E. discriminate. }
  destruct (new_message_fields (MOper oper) sender receiver fields now uuid)
    as (msg & Emsg & Hfields).
  exists msg. split; [done|]. rewrite Hfields.
  unfold message_field. change (String.eqb "body" "mid") with false. cbv iota.
  rewrite copied_body.
  assert (own_field (MOper oper) sender receiver now "body"
          = Some (MOper oper)) as ->.
  { unfold own_field. change (String.eqb "body" "body") with true. cbv iota.
    by rewrite (wf_operation_not_empty oper Hkeys Hal). }
  by destruct (args_entry fields "body").
Qed.

Lemma built_operation_is_body_witness :
  ∃ msg,
    new_message (MOper (MR_oper 0 1)) (MStr "me") MNone
      (Some {["body" := MStr "x"]}) "now" "uuid"
    = Ok (msg, args_left (Some {["body" := MStr "x"]})) ∧
    msg !! "body" = Some (MOper (MR_oper 0 1)).
Proof.
  apply (built_operation_is_body DropKey
           [frag "Person" "A"; frag "Person" "B"]
           {["R" := VObj 1; "M" := VObj 0]} (MR_oper 0 1)
           [frag "Person" "A"; frag "Person" "B"]).
  - unfold populated, SLOT_NAMES. repeat constructor; vm_compute; eauto.
  - reflexivity.
Defined.

(** * om2api: OM2.remove *)


